(** * ThemeManager: the theme loading and refresh pipeline of Brackets-Themes

    A shallow embedding of [src/ThemeManager.js]: the two source-rewriting
    regular expressions, the [Theme] constructor, the registry of loaded
    themes and the asynchronous loading pipeline, followed by the properties
    established about them. *)

From Stdlib Require Import Ascii String List Arith ZArith Lia Bool.
From stdpp Require Import base option list gmap strings.

Import ListNotations.
Local Open Scope char_scope.
Local Open Scope list_scope.

(** ** Strings

    A JavaScript string is modelled as the list of its characters.  String
    literals of the source are written [str "..."]. *)

Abbreviation text := (list ascii).

Definition str (s : string) : text := list_ascii_of_string s.
Arguments str : simpl never.

(** ** Regular expressions

    The two expressions of the source use literal characters and starred
    character classes only, so a pattern is a sequence of such atoms.  The
    matcher is the backtracking one of the language: a greedy star takes the
    longest run first and gives characters back, a lazy star takes the
    shortest run first and extends it. *)

Module Regex.

Inductive atom : Type :=
| Chr (c : ascii)                      (* a literal character *)
| Greedy (cls : ascii -> bool)         (* [cls]*  *)
| Lazy (cls : ascii -> bool).          (* [cls]*? *)

Definition regex := list atom.

Definition lits (s : string) : regex := map Chr (str s).

(** [k] is the continuation: the match of the rest of the pattern.  A match
    is reported as the number of characters it spans. *)
Fixpoint greedy_star (cls : ascii -> bool) (k : text -> option nat)
    (s : text) : option nat :=
  match s with
  | c :: t =>
      if cls c then
        match greedy_star cls k t with
        | Some n => Some (S n)
        | None => k s
        end
      else k s
  | [] => k s
  end.

Fixpoint lazy_star (cls : ascii -> bool) (k : text -> option nat)
    (s : text) : option nat :=
  match k s with
  | Some n => Some n
  | None =>
      match s with
      | c :: t => if cls c then S <$> lazy_star cls k t else None
      | [] => None
      end
  end.

Fixpoint exec (r : regex) : text -> option nat :=
  match r with
  | [] => fun _ => Some 0
  | Chr c :: r' => fun s =>
      match s with
      | x :: t => if Ascii.eqb x c then S <$> exec r' t else None
      | [] => None
      end
  | Greedy cls :: r' => greedy_star cls (exec r')
  | Lazy cls :: r' => lazy_star cls (exec r')
  end.

(** [String.prototype.replace] with a global pattern and a callback that
    returns the empty string: the scan goes left to right, every match is
    handed to the callback (here: collected, in order) and removed, and the
    scan resumes after it.  [skip] counts the characters of the current match
    that are still to be passed over.  A match of length zero leaves the
    character in place and moves on by one. *)
Fixpoint remove_from (r : regex) (skip : nat) (s : text) : text * list text :=
  match s with
  | [] =>
      match skip, exec r [] with
      | 0, Some _ => ([], [[]])
      | _, _ => ([], [])
      end
  | c :: t =>
      match skip with
      | S k => remove_from r k t
      | 0 =>
          match exec r s with
          | Some (S n) =>
              let '(out, ms) := remove_from r n t in (out, take (S n) s :: ms)
          | Some 0 =>
              let '(out, ms) := remove_from r 0 t in (c :: out, [] :: ms)
          | None =>
              let '(out, ms) := remove_from r 0 t in (c :: out, ms)
          end
      end
  end.

Definition remove_all (r : regex) (s : text) : text * list text :=
  remove_from r 0 s.

End Regex.

Import Regex.

(** ** The module's constants *)

Definition any_char (_ : ascii) : bool := true.

(** The class of every character but the closing brace, the bar and the
    comma. *)
Definition selector_char (c : ascii) : bool :=
  negb (Ascii.eqb c "}" || Ascii.eqb c "|" || Ascii.eqb c ",").

Definition defaultTheme : string := "default".

(** [commentRegex]: slash, star, any characters (lazily), star, slash; flags
    [mg].  Its one group is not used by the replacement. *)
Definition commentRegex : regex :=
  lits "/*" ++ [Lazy any_char] ++ lits "*/".

(** [scrollbarsRegex]: selector characters (greedily), the pseudo-element,
    any characters (lazily), an opening brace, any characters (lazily), a
    closing brace; flags [mg]. *)
Definition scrollbarsRegex : regex :=
  [Greedy selector_char] ++ lits "::-webkit-scrollbar" ++
  [Lazy any_char] ++ lits "{" ++ [Lazy any_char] ++ lits "}".

Definition validExtensions : list string := ["css"; "less"]%string.

(** ** Source transformation *)

(** The first [replace] of [extractScrollbars]: every match of
    [commentRegex] is replaced by the empty string. *)
Definition stripComments (content : text) : text :=
  fst (remove_all commentRegex content).

(** The object returned by [extractScrollbars]. *)
Module Ex.
Record t := { content : text; scrollbar : list text }.
End Ex.

(** [extractScrollbars] *)
Definition extractScrollbars (content : text) : Ex.t :=
  let '(rest, found) := remove_all scrollbarsRegex (stripComments content) in
  {| Ex.content := rest; Ex.scrollbar := found |}.


(** ** String methods used by the module *)

(** [s.lastIndexOf(c)], -1 when [c] does not occur. *)
Fixpoint lastIndexOf (c : ascii) (s : text) : Z :=
  match s with
  | [] => -1
  | x :: t =>
      let r := lastIndexOf c t in
      if (0 <=? r)%Z then (r + 1)%Z
      else if Ascii.eqb x c then 0%Z else (-1)%Z
  end.

(** [s.substring(a, b)]: both indices are clamped to the string, and swapped
    when [a] is the larger. *)
Definition substring (a b : Z) (s : text) : text :=
  let clamp (i : Z) := Z.to_nat (Z.min (Z.max 0 i) (Z.of_nat (length s))) in
  let lo := Nat.min (clamp a) (clamp b) in
  let hi := Nat.max (clamp a) (clamp b) in
  take (hi - lo) (drop lo s).

(** [s.substring(a)] *)
Definition substring_from (a : Z) (s : text) : text :=
  substring a (Z.of_nat (length s)) s.

(** [s.replace(/-/g, ' ')] *)
Definition dashes_to_spaces (s : text) : text :=
  map (fun c => if Ascii.eqb c "-" then " " else c) s.

(** [s.split(sep)] for a separator of one character. *)
Fixpoint split (sep : ascii) (s : text) : list text :=
  match s with
  | [] => [[]]
  | c :: t =>
      if Ascii.eqb c sep then [] :: split sep t
      else match split sep t with
           | p :: ps => (c :: p) :: ps
           | [] => [[c]]
           end
  end.

(** [parts.join(sep)] *)
Fixpoint join (sep : text) (parts : list text) : text :=
  match parts with
  | [] => []
  | [p] => p
  | p :: ps => p ++ sep ++ join sep ps
  end.

(** [c.toUpperCase()]: the letters a to z are mapped to A to Z and every
    other character is returned as it is, which is what the method does on
    the 7-bit characters; the result is a string. *)
Definition toUpperCase (c : ascii) : text :=
  let n := nat_of_ascii c in
  if ((97 <=? n) && (n <=? 122))%nat then [ascii_of_nat (n - 32)%nat] else [c].

(** ** Exceptions *)

Inductive Exn : Type :=
| TypeError (what : string).

Inductive result (A : Type) : Type :=
| Ok (a : A)
| Throw (e : Exn).
Arguments Ok {A} a.
Arguments Throw {A} e.

#[global] Instance result_ret : MRet result := fun _ a => Ok a.
#[global] Instance result_bind : MBind result := fun _ _ f r =>
  match r with
  | Ok a => f a
  | Throw e => Throw e
  end.
#[global] Instance result_fmap : FMap result := fun _ _ f r =>
  match r with
  | Ok a => Ok (f a)
  | Throw e => Throw e
  end.

(** ** Themes *)

(** A [File] of the host's file system: its full path [file._path] and its
    name [file.name], the last component of the path. *)
Record File := { _path : text; fname : text }.

(** [toDisplayName]: reading [part[0]] of an empty part gives [undefined],
    whose [toUpperCase] is a [TypeError]. *)
Definition capitalize (part : text) : result text :=
  match part with
  | c :: _ => Ok (toUpperCase c ++ substring_from 1 part)
  | [] => Throw (TypeError "part[0] is undefined")
  end.

Definition toDisplayName (name : text) : result text :=
  let name := dashes_to_spaces (substring 0 (lastIndexOf "." name) name) in
  parts ← mapM capitalize (split " " name);
  Ok (join (str " ") parts).

(** The [options] of the constructor; an absent property is [None]. *)
Module Options.
Record t := { title : option text; name : option text; className : option text }.
Definition none : t := {| title := None; name := None; className := None |}.
End Options.

(** [v || d] on a string property: [undefined] and the empty string are
    falsy. *)
Definition or_else (v : option text) (d : text) : text :=
  match v with
  | Some (c :: s) => c :: s
  | _ => d
  end.

Definition falsy (v : option text) : bool :=
  match v with
  | Some (_ :: _) => false
  | _ => true
  end.

Abbreviation node := nat.

Record Theme := {
  file : File;
  displayName : text;
  name : text;
  className : text;
  scrollbar : option (list text);      (* [undefined] until the first load *)
  css : option node                    (* the style element, once applied *)
}.

(** [new Theme(file, options)] *)
Definition newTheme (file : File) (options : Options.t) : result Theme :=
  let fileName := fname file in
  displayName ← (if falsy (Options.title options) then toDisplayName fileName
                  else Ok (or_else (Options.title options) []));
  let name := or_else (Options.name options)
                (substring 0 (lastIndexOf "." fileName) fileName) in
  let className := or_else (Options.className options) (str "theme-" ++ name) in
  Ok {| file := file; displayName := displayName; name := name;
        className := className; scrollbar := None; css := None |}.

(** ** The host

    The collaborators of the module: the file system, the preference store,
    the less compiler and the active editor.  What they answer is given by a
    [Host]; their calls are recorded in the trace of the state. *)

Inductive Error : Type :=
| HostError (code : nat)               (* an error value of the host *)
| Message (m : string).                (* a string of the module *)

Record Entry := { entry_name : text; isFile : bool }.

Abbreviation cm := nat.

Record Host := {
  (* [file.exists(callback)]: the [err] and [exists] given to the callback *)
  exists_ : text -> option Error * bool;
  (* [FileUtils.readAsText(file)] *)
  readAsText : text -> Error + text;
  (* [parser.parse(source, callback)] with [filename]: [err] or [tree.toCSS()] *)
  lessParse : text -> text -> Error + text;
  (* [getContents(callback)]: the [err] and [entries] given to the callback *)
  getContents : text -> option Error * option (list Entry);
  (* [prefs.get("themes")] *)
  prefsThemes : option (list text);
  (* [EditorManager.getActiveEditor()] and its [_codeMirror] *)
  activeEditor : option (option cm)
}.

Inductive Event : Type :=
| EvExists (path : text)
| EvReadAsText (path : text)
| EvParse (source filename : text)
| EvAddStyle (n : node) (style : text)
| EvRemoveStyle (n : node)
| EvGetContents (path : text)
| EvSetDocumentMode (c : cm)
| EvUpdateThemes (c : cm)
| EvSetTimeout (c : cm) (ms : nat)
| EvCmRefresh (c : cm)
| EvResizeEditor
| EvUncaught (e : Exn).

(** ** Deferred objects *)

Abbreviation loc := nat.
Abbreviation pid := nat.

(** What a rejected deferred carries: an error, or the object
    [{path, error}] of [loadDirectory]. *)
Inductive Reason : Type :=
| RError (e : Error)
| RPath (path : option text) (error : Error).

Inductive PState : Type :=
| Pending
| Resolved (args : list loc)
| Rejected (r : Reason).

(** A deferred settled by the module, or the aggregate [$.when.apply] of
    others; [onDone] tells that the callback of [refresh] is attached and has
    not run. *)
Inductive Promise : Type :=
| Deferred (st : PState)
| WhenAll (srcs : list pid) (st : PState) (onDone : bool).

Definition pstate (p : Promise) : PState :=
  match p with
  | Deferred st => st
  | WhenAll _ st _ => st
  end.

(** ** Pending operations

    Each task is an asynchronous operation in flight, or a callback of a
    [then] chain that has not run yet, with the variables its closure
    holds.  The chain of [loadCurrentThemes] is [TRead] (the file is read:
    first callback), [TParse] (the compiler is called and answers),
    [TInsert] (third callback) and [TApply] (last callback).  Where the
    library runs a callback at once when the one before it returns, the
    steps follow each other in the schedule; no order of the steps of
    different chains is assumed. *)
Inductive Task : Type :=
| TExists (f : File) (options : Options.t) (currentThemes : list text) (d : pid)
| TRead (l : loc) (p : pid)
| TParse (l : loc) (content : text) (p : pid)
| TInsert (l : loc) (style : text) (p : pid)
| TApply (l : loc) (styleNode : node) (p : pid)
| TList (path : text) (d : pid)
| TTimeout (c : cm)
| TDone.

(** ** State *)

Record State := {
  loadedThemes : gmap text loc;        (* the registry: its own properties *)
  heap : list Theme;                   (* the theme objects *)
  dom : list (node * text);            (* the embedded style sheets *)
  nextNode : node;
  promises : list Promise;
  tasks : list Task;
  trace : list Event
}.

Definition initial : State :=
  {| loadedThemes := ∅; heap := []; dom := []; nextNode := 0;
     promises := []; tasks := []; trace := [] |}.

Definition set_loadedThemes (f : gmap text loc -> gmap text loc) (σ : State) :=
  {| loadedThemes := f (loadedThemes σ); heap := heap σ; dom := dom σ;
     nextNode := nextNode σ; promises := promises σ; tasks := tasks σ;
     trace := trace σ |}.
Definition set_heap (f : list Theme -> list Theme) (σ : State) :=
  {| loadedThemes := loadedThemes σ; heap := f (heap σ); dom := dom σ;
     nextNode := nextNode σ; promises := promises σ; tasks := tasks σ;
     trace := trace σ |}.
Definition set_dom (f : list (node * text) -> list (node * text)) (σ : State) :=
  {| loadedThemes := loadedThemes σ; heap := heap σ; dom := f (dom σ);
     nextNode := nextNode σ; promises := promises σ; tasks := tasks σ;
     trace := trace σ |}.
Definition set_nextNode (f : node -> node) (σ : State) :=
  {| loadedThemes := loadedThemes σ; heap := heap σ; dom := dom σ;
     nextNode := f (nextNode σ); promises := promises σ; tasks := tasks σ;
     trace := trace σ |}.
Definition set_promises (f : list Promise -> list Promise) (σ : State) :=
  {| loadedThemes := loadedThemes σ; heap := heap σ; dom := dom σ;
     nextNode := nextNode σ; promises := f (promises σ); tasks := tasks σ;
     trace := trace σ |}.
Definition set_tasks (f : list Task -> list Task) (σ : State) :=
  {| loadedThemes := loadedThemes σ; heap := heap σ; dom := dom σ;
     nextNode := nextNode σ; promises := promises σ; tasks := f (tasks σ);
     trace := trace σ |}.
Definition set_trace (f : list Event -> list Event) (σ : State) :=
  {| loadedThemes := loadedThemes σ; heap := heap σ; dom := dom σ;
     nextNode := nextNode σ; promises := promises σ; tasks := tasks σ;
     trace := f (trace σ) |}.

Definition emit (e : Event) : State -> State := set_trace (fun t => t ++ [e]).
Definition spawn (t : Task) : State -> State := set_tasks (fun ts => ts ++ [t]).

Definition newPromise (p : Promise) (σ : State) : pid * State :=
  (length (promises σ), set_promises (fun ps => ps ++ [p]) σ).

(** [theme.scrollbar = v] and [theme.css = v] on the object at [l]. *)
Definition with_scrollbar (v : list text) (t : Theme) : Theme :=
  {| file := file t; displayName := displayName t; name := name t;
     className := className t; scrollbar := Some v; css := css t |}.
Definition with_css (n : node) (t : Theme) : Theme :=
  {| file := file t; displayName := displayName t; name := name t;
     className := className t; scrollbar := scrollbar t; css := Some n |}.

(** ** Settling deferreds *)

Definition resolved_args (ps : list Promise) (s : pid) : option (list loc) :=
  match pstate <$> ps !! s with
  | Some (Resolved a) => Some a
  | _ => None
  end.

Definition rejected_reason (ps : list Promise) (s : pid) : option Reason :=
  match pstate <$> ps !! s with
  | Some (Rejected r) => Some r
  | _ => None
  end.

(** [$.when.apply(undefined, srcs)]: rejected as soon as one source is,
    resolved with the values of all once all are resolved. *)
Definition when_state (ps : list Promise) (srcs : list pid) : PState :=
  match omap (rejected_reason ps) srcs with
  | r :: _ => Rejected r
  | [] =>
      match mapM (resolved_args ps) srcs with
      | Some args => Resolved (concat args)
      | None => Pending
      end
  end.

(** [refreshEditor]: the editor is refreshed after 100 ms. *)
Definition refreshEditor (c : cm) (σ : State) : State :=
  spawn (TTimeout c) (emit (EvSetTimeout c 100) σ).

(** The callback that [refresh] gives to [done]. *)
Definition onRefreshed (h : Host) (σ : State) : State :=
  match activeEditor h with
  | Some (Some c) =>
      refreshEditor c (emit (EvUpdateThemes c) (emit (EvSetDocumentMode c) σ))
  | _ => σ
  end.

(** An aggregate looks at its sources again; when it becomes resolved, the
    callback attached to it runs. *)
Definition update_when (h : Host) (σ : State) (q : pid) : State :=
  match promises σ !! q with
  | Some (WhenAll srcs Pending onDone) =>
      match when_state (promises σ) srcs with
      | Pending => σ
      | Resolved a =>
          let σ := set_promises <[q := WhenAll srcs (Resolved a) false]> σ in
          if onDone then onRefreshed h σ else σ
      | Rejected r => set_promises <[q := WhenAll srcs (Rejected r) onDone]> σ
      end
  | _ => σ
  end.

(** [deferred.resolve] and [deferred.reject]: a settled deferred stays as it
    is; the aggregates that wait for it are told. *)
Definition settle (h : Host) (d : pid) (st : PState) (σ : State) : State :=
  match promises σ !! d with
  | Some (Deferred Pending) =>
      let σ := set_promises <[d := Deferred st]> σ in
      foldl (update_when h) σ (seq 0 (length (promises σ)))
  | _ => σ
  end.

(** ** The module's functions *)

(** [getCurrentThemes]: [slice] of an undefined preference is a
    [TypeError]; an unregistered name with no default theme registered gives
    [undefined]. *)
Definition getCurrentThemes (h : Host) (σ : State) : result (list (option loc)) :=
  match prefsThemes h with
  | None => Throw (TypeError "prefs.get(themes) is undefined")
  | Some names =>
      Ok (map (fun item =>
                 match loadedThemes σ !! item with
                 | Some l => Some l
                 | None => loadedThemes σ !! str defaultTheme
                 end) names)
  end.

(** The body of the [_.map] callback of [loadCurrentThemes] up to the call
    of [readAsText]; the callbacks of the chain are the tasks [TRead],
    [TParse], [TInsert] and [TApply]. *)
Definition startLoad (theme : option loc) (σ : State) : State * result pid :=
  match theme ≫= (fun l => (fun t => (l, t)) <$> heap σ !! l) with
  | None => (σ, Throw (TypeError "theme is undefined"))
  | Some (l, t) =>
      let '(p, σ) := newPromise (Deferred Pending) σ in
      (spawn (TRead l p) (emit (EvReadAsText (_path (file t))) σ), Ok p)
  end.

Fixpoint startLoads (themes : list (option loc)) (σ : State)
    : State * result (list pid) :=
  match themes with
  | [] => (σ, Ok [])
  | theme :: rest =>
      match startLoad theme σ with
      | (σ, Throw e) => (σ, Throw e)
      | (σ, Ok p) =>
          match startLoads rest σ with
          | (σ, Throw e) => (σ, Throw e)
          | (σ, Ok ps) => (σ, Ok (p :: ps))
          end
      end
  end.

(** [loadCurrentThemes] *)
Definition loadCurrentThemes (h : Host) (σ : State) : State * result pid :=
  match getCurrentThemes h σ with
  | Throw e => (σ, Throw e)
  | Ok themes =>
      match startLoads themes σ with
      | (σ, Throw e) => (σ, Throw e)
      | (σ, Ok ps) =>
          let '(a, σ) :=
            newPromise (WhenAll ps (when_state (promises σ) ps) false) σ in
          (σ, Ok a)
      end
  end.

(** [refresh(force)]; [force] is [None] when the argument is left out. *)
Definition refresh (h : Host) (force : option bool) (σ : State)
    : State * result unit :=
  match force with
  | Some true =>
      match loadCurrentThemes h σ with
      | (σ, Throw e) => (σ, Throw e)
      | (σ, Ok a) =>
          match promises σ !! a with
          | Some (WhenAll srcs Pending _) =>
              (set_promises <[a := WhenAll srcs Pending true]> σ, Ok ())
          | Some (WhenAll srcs (Resolved _) _) => (onRefreshed h σ, Ok ())
          | _ => (σ, Ok ())
          end
      end
  | _ => (onRefreshed h σ, Ok ())
  end.

(** [FileSystem.getFileForPath]: the name of a file is the last component of
    its path. *)
Definition getFileForPath (path : text) : File :=
  {| _path := path;
     fname := substring_from (lastIndexOf "/" path + 1) path |}.

(** [loadFile]: the returned deferred, and the existence check in flight. *)
Definition loadFile (h : Host) (fileName : text) (options : Options.t)
    (σ : State) : pid * State :=
  let '(deferred, σ) := newPromise (Deferred Pending) σ in
  let file := getFileForPath fileName in
  let currentThemes := default [] (prefsThemes h) in
  (deferred,
   spawn (TExists file options currentThemes deferred)
     (emit (EvExists (_path file)) σ)).

(** The callback that [loadFile] gives to [file.exists]. *)
Definition onExists (h : Host) (f : File) (options : Options.t)
    (currentThemes : list text) (deferred : pid) (σ : State) : State :=
  let '(err, found) := exists_ h (_path f) in
  if found then
    match newTheme f options with
    | Throw e => emit (EvUncaught e) σ
    | Ok theme =>
        let l := length (heap σ) in
        let σ := set_heap (fun hp => hp ++ [theme]) σ in
        let σ := set_loadedThemes <[name theme := l]> σ in
        let '(σ, r) :=
          if bool_decide (name theme ∈ currentThemes)
          then refresh h (Some true) σ else (σ, Ok ()) in
        match r with
        | Throw e => emit (EvUncaught e) σ
        | Ok _ => settle h deferred (Resolved [l]) σ
        end
    end
  else
    match err with
    | Some e => settle h deferred (Rejected (RError e)) σ
    | None => σ
    end.

(** [loadPackage] *)
Record Package := { pkg_path : text; metadata_theme : text;
                    metadata_name : option text; metadata_title : option text }.

Definition loadPackage (h : Host) (themePackage : Package) (σ : State)
    : pid * State :=
  let fileName := pkg_path themePackage ++ str "/" ++ metadata_theme themePackage in
  loadFile h fileName
    {| Options.title := metadata_title themePackage;
       Options.name := metadata_name themePackage;
       Options.className := None |} σ.

(** [FileUtils.getFileExtension]: what follows the last dot of the name. *)
Definition getFileExtension (fileName : text) : text :=
  let idx := lastIndexOf "." fileName in
  if (idx =? -1)%Z then [] else substring_from (idx + 1) fileName.

(** [isFileTypeValid] *)
Definition isFileTypeValid (e : Entry) : bool :=
  isFile e && bool_decide (getFileExtension (entry_name e) ∈ map str validExtensions).

(** [loadDirectory]; [path] is [None] when it is [undefined]. *)
Definition loadDirectory (h : Host) (path : option text) (σ : State)
    : pid * State :=
  if falsy path then
    newPromise
      (Deferred (Rejected (RPath path (Message "Path not defined")))) σ
  else
    let path := default [] path in
    let '(result, σ) := newPromise (Deferred Pending) σ in
    (result, spawn (TList path result) (emit (EvGetContents path) σ)).

(** [loadThemesFiles] *)
Fixpoint loadThemesFiles (h : Host) (path : text) (files : list text)
    (σ : State) : list pid * State :=
  match files with
  | [] => ([], σ)
  | themeFile :: rest =>
      let '(d, σ) := loadFile h (path ++ str "/" ++ themeFile) Options.none σ in
      let '(ds, σ) := loadThemesFiles h path rest σ in
      (d :: ds, σ)
  end.

(** [readContent], followed by [loadThemesFiles] when the listing
    succeeded. *)
Definition onContents (h : Host) (path : text) (result : pid) (σ : State)
    : State :=
  let '(err, entries) := getContents h path in
  let files := entry_name <$> filter (fun e => isFileTypeValid e = true)
                                (default [] entries) in
  match err with
  | Some e => settle h result (Rejected (RPath (Some path) e)) σ
  | None =>
      let '(ds, σ) := loadThemesFiles h path files σ in
      set_promises
        <[result := WhenAll ds (when_state (promises σ) ds) false]> σ
  end.

(** ** The event loop

    [step h i σ] runs the callback of the task in slot [i], with the host
    answering as [h] does; a schedule is a sequence of such steps. *)
Definition step (h : Host) (i : nat) (σ : State) : State :=
  match tasks σ !! i with
  | None => σ
  | Some t =>
      let σ := set_tasks <[i := TDone]> σ in
      match t with
      | TExists f options currentThemes d => onExists h f options currentThemes d σ
      | TRead l p =>
          match heap σ !! l with
          | None => σ
          | Some theme =>
              match readAsText h (_path (file theme)) with
              | inl e => settle h p (Rejected (RError e)) σ
              | inr content =>
                  let result := extractScrollbars content in
                  let σ := set_heap (alter (with_scrollbar (Ex.scrollbar result)) l) σ in
                  set_tasks <[i := TParse l (Ex.content result) p]> σ
              end
          end
      | TParse l content p =>
          match heap σ !! l with
          | None => σ
          | Some theme =>
              let source := str "." ++ className theme ++ str "{" ++ content ++ str "}" in
              let filename := _path (file theme) in
              let σ := emit (EvParse source filename) σ in
              match lessParse h source filename with
              | inl e => settle h p (Rejected (RError e)) σ
              | inr style => set_tasks <[i := TInsert l style p]> σ
              end
          end
      | TInsert l style p =>
          let n := nextNode σ in
          let σ := set_nextNode S (set_dom (fun d => d ++ [(n, style)]) σ) in
          set_tasks <[i := TApply l n p]> (emit (EvAddStyle n style) σ)
      | TApply l styleNode p =>
          match heap σ !! l with
          | None => σ
          | Some theme =>
              let σ :=
                match css theme with
                | Some old =>
                    emit (EvRemoveStyle old)
                      (set_dom (filter (fun x => x.1 ≠ old)) σ)
                | None => σ
                end in
              let σ := set_heap (alter (with_css styleNode) l) σ in
              settle h p (Resolved [l]) σ
          end
      | TList path d => onContents h path d σ
      | TTimeout c => emit EvResizeEditor (emit (EvCmRefresh c) σ)
      | TDone => σ
      end
  end.

Definition run (schedule : list (Host * nat)) (σ : State) : State :=
  foldl (fun σ hi => step hi.1 hi.2 σ) σ schedule.

(** ** Predicates on texts used in the statements *)

(** [pat] is a prefix of [s]. *)
Fixpoint starts_with (pat s : text) : bool :=
  match pat, s with
  | [], _ => true
  | p :: pat', c :: s' => Ascii.eqb c p && starts_with pat' s'
  | _ :: _, [] => false
  end.

(** [pat] occurs in [s]: [s.indexOf(pat) !== -1]. *)
Fixpoint contains (pat s : text) : bool :=
  starts_with pat s ||
  match s with
  | [] => false
  | _ :: t => contains pat t
  end.


(** The distance from the start of [s] to the end of the nearest
    star-slash in it: what the lazy middle of [commentRegex] looks for. *)
Definition closer (s : text) : option nat :=
  lazy_star any_char (exec (lits "*/")) s.
Arguments closer : simpl never.

(** ** Vocabulary of the statements about the matcher *)

(** A continuation is bounded when the matches it reports fit in the text. *)
Definition bounded (k : text -> option nat) : Prop :=
  forall s n, k s = Some n -> n <= length s.



(** ** Vocabulary of the statements about states *)

Definition is_timeout (t : Task) : Prop :=
  match t with TTimeout _ => True | _ => False end.

Definition is_apply (t : Task) : Prop :=
  match t with TApply _ _ _ => True | _ => False end.

(** The events of the callback of [refresh]: calls of [ThemeView] and the
    timer of [refreshEditor]. *)
Definition is_view_event (e : Event) : Prop :=
  match e with
  | EvSetDocumentMode _ | EvUpdateThemes _ | EvSetTimeout _ _ => True
  | _ => False
  end.

Definition is_remove (e : Event) : Prop :=
  match e with EvRemoveStyle _ => True | _ => False end.

(** [σ'] differs from [σ] by callbacks of [refresh] only: the themes and the
    style sheets are the same. *)
Record view_only (σ σ' : State) : Prop := {
  vo_loadedThemes : loadedThemes σ' = loadedThemes σ;
  vo_heap : heap σ' = heap σ;
  vo_dom : dom σ' = dom σ;
  vo_nextNode : nextNode σ' = nextNode σ;
  vo_promises : length (promises σ') = length (promises σ);
  vo_tasks : exists ts, tasks σ' = tasks σ ++ ts /\ Forall is_timeout ts;
  vo_trace : exists evs, trace σ' = trace σ ++ evs /\ Forall is_view_event evs
}.

(** [σ'] comes from [σ] without touching a style sheet: no sheet is added or
    removed, no theme gets a handle it did not have, and no final callback
    of a pipeline is created. *)
Record quiet (σ σ' : State) : Prop := {
  q_dom : dom σ' = dom σ;
  q_nextNode : nextNode σ' = nextNode σ;
  q_heap : forall l theme m,
    heap σ' !! l = Some theme -> css theme = Some m ->
    exists theme0, heap σ !! l = Some theme0 /\ css theme0 = Some m;
  q_tasks : forall j t,
    tasks σ' !! j = Some t -> is_apply t -> tasks σ !! j = Some t;
  q_trace : exists evs,
    trace σ' = trace σ ++ evs /\ Forall (fun e => ~ is_remove e) evs
}.

(** The invariant of the style sheets: a node waiting in a last callback
    has been inserted and is in the page, no two callbacks wait with the same
    node, and the handle of a theme is in the page, is not waiting in a
    callback and belongs to that theme only. *)
Record wf (σ : State) : Prop := {
  wf_apply : forall i l n p,
    tasks σ !! i = Some (TApply l n p) ->
    n < nextNode σ /\
    exists style, (n, style) ∈ dom σ /\ EvAddStyle n style ∈ trace σ;
  wf_distinct : forall i j l n p l' p',
    tasks σ !! i = Some (TApply l n p) ->
    tasks σ !! j = Some (TApply l' n p') -> i = j;
  wf_css : forall l theme m,
    heap σ !! l = Some theme -> css theme = Some m ->
    m < nextNode σ /\
    (exists style, (m, style) ∈ dom σ) /\
    forall i l' p, tasks σ !! i <> Some (TApply l' m p);
  wf_owner : forall l1 l2 t1 t2 m,
    heap σ !! l1 = Some t1 -> heap σ !! l2 = Some t2 ->
    css t1 = Some m -> css t2 = Some m -> l1 = l2
}.

(** The last callback of a pipeline, before its deferred is resolved: the
    sheet that the theme holds is removed and the new one is recorded. *)
Definition applied (i : nat) (l : loc) (styleNode : node) (theme : Theme)
    (σ : State) : State :=
  let σ := set_tasks <[i := TDone]> σ in
  let σ :=
    match css theme with
    | Some old =>
        emit (EvRemoveStyle old) (set_dom (filter (fun x => x.1 ≠ old)) σ)
    | None => σ
    end in
  set_heap (alter (with_css styleNode) l) σ.

(** The states of the module: from the initial one, by the calls of the
    exported functions and the steps of the event loop. *)
Inductive reachable : State -> Prop :=
| reach_initial : reachable initial
| reach_step h i σ : reachable σ -> reachable (step h i σ)
| reach_refresh h force σ : reachable σ -> reachable (refresh h force σ).1
| reach_loadFile h fileName options σ :
    reachable σ -> reachable (loadFile h fileName options σ).2
| reach_loadPackage h pkg σ : reachable σ -> reachable (loadPackage h pkg σ).2
| reach_loadDirectory h path σ :
    reachable σ -> reachable (loadDirectory h path σ).2.

(** ** A session

    One theme file, [/themes/dark.less], selected in the preferences: it is
    loaded, compiled and applied; then its source changes and it is loaded
    again. *)
Module Session.

Definition host (source : text) (compiles : bool) : Host :=
  {| exists_ := fun _ => (None, true);
     readAsText := fun _ => inr source;
     lessParse := fun src _ => if compiles then inr src else inl (HostError 1);
     getContents := fun _ => (None, Some []);
     prefsThemes := Some [str "dark"];
     activeEditor := Some (Some 0) |}.

Definition first : Host :=
  host (str "body::-webkit-scrollbar{width:1px} body{color:red}") true.
Definition changed : Host :=
  host (str "body::-webkit-scrollbar{width:2px} body{color:blue}") true.

(** [loadFile], the existence check answered: the theme is registered and,
    being selected, read. *)
Definition loaded : State :=
  step first 0 (loadFile first (str "/themes/dark.less") Options.none initial).2.

(** The four callbacks of the pipeline have run: the theme is applied. *)
Definition shown : State :=
  step first 1 (step first 1 (step first 1 (step first 1 loaded))).

(** The file changed: [refresh(true)] with the host [h]. *)
Definition reloading (h : Host) : State := (refresh h (Some true) shown).1.

(** The new source is read, compiled and inserted; the last callback of the
    pipeline is still to run. *)
Definition inserted : State :=
  step changed 3 (step changed 3 (step changed 3 (reloading changed))).

End Session.

(** ** The handler of file changes *)



(** ** Vocabulary of the further statements *)

(** The pseudo-element that [scrollbarsRegex] looks for. *)
Definition pseudo : text := str "::-webkit-scrollbar".


(** [σ'] comes from [σ] by starting operations: the registry, the themes
    and the style sheets are the same, and deferreds, tasks and events are
    added behind the ones there are. *)
Record starts_only (σ σ' : State) : Prop := {
  so_loadedThemes : loadedThemes σ' = loadedThemes σ;
  so_heap : heap σ' = heap σ;
  so_dom : dom σ' = dom σ;
  so_nextNode : nextNode σ' = nextNode σ;
  so_promises : exists ps, promises σ' = promises σ ++ ps;
  so_tasks : exists ts, tasks σ' = tasks σ ++ ts;
  so_trace : exists evs, trace σ' = trace σ ++ evs
}.

(** The fields of a theme that the constructor sets. *)
Definition same_identity (t t' : Theme) : Prop :=
  file t' = file t /\ displayName t' = displayName t /\
  name t' = name t /\ className t' = className t.


(** From [σ] to [σ'] no theme object is lost or changes its identity, no
    name leaves the registry, and what the registry gains is a theme under
    its name. *)
Record evolves (σ σ' : State) : Prop := {
  ev_heap : forall l t, heap σ !! l = Some t ->
    exists t', heap σ' !! l = Some t' /\ same_identity t t';
  ev_names : forall n,
    is_Some (loadedThemes σ !! n) -> is_Some (loadedThemes σ' !! n);
  ev_registry : forall n l, loadedThemes σ' !! n = Some l ->
    loadedThemes σ !! n = Some l \/
    exists t, heap σ' !! l = Some t /\ name t = n
}.


(** The existence check that [loadFile] starts for the file [themeFile] of
    the directory [path], with [d] the deferred it returns. *)
Definition check_of (h : Host) (path themeFile : text) (d : pid) : Task :=
  TExists (getFileForPath (path ++ str "/" ++ themeFile)) Options.none
    (default [] (prefsThemes h)) d.

(** The names of the entries that [readContent] keeps. *)
Definition theme_files (entries : option (list Entry)) : list text :=
  entry_name <$> filter (fun e => isFileTypeValid e = true) (default [] entries).

(** [σ'] is a state that the module can be in after [σ]: calls of the
    exported functions and steps of the event loop lead from one to the
    other. *)
Inductive later (σ : State) : State -> Prop :=
| later_refl : later σ σ
| later_step h i σ' : later σ σ' -> later σ (step h i σ')
| later_refresh h force σ' : later σ σ' -> later σ (refresh h force σ').1
| later_loadFile h fileName options σ' :
    later σ σ' -> later σ (loadFile h fileName options σ').2
| later_loadPackage h pkg σ' : later σ σ' -> later σ (loadPackage h pkg σ').2
| later_loadDirectory h path σ' :
    later σ σ' -> later σ (loadDirectory h path σ').2.

(** The events of the callback of [refresh] for the editor [c]. *)
Definition view_events (c : cm) : list Event :=
  [EvSetDocumentMode c; EvUpdateThemes c; EvSetTimeout c 100].

(** The deferred that the callback of a task settles. *)
Definition target (t : Task) : option pid :=
  match t with
  | TExists _ _ _ d | TList _ d => Some d
  | TRead _ p | TParse _ _ p | TInsert _ _ p | TApply _ _ p => Some p
  | TTimeout _ | TDone => None
  end.

(** Every callback that is still to run holds a deferred that is pending,
    and no two hold the same. *)
Record owned (σ : State) : Prop := {
  own_pending : forall i t d,
    tasks σ !! i = Some t -> target t = Some d ->
    promises σ !! d = Some (Deferred Pending);
  own_distinct : forall i j t t' d,
    tasks σ !! i = Some t -> tasks σ !! j = Some t' ->
    target t = Some d -> target t' = Some d -> i = j
}.

(** No callback holds the deferred [d]. *)
Definition free (d : pid) (σ : State) : Prop :=
  forall j t, tasks σ !! j = Some t -> target t <> Some d.

(** From [σ] to [σ'] operations are started: the deferreds and the tasks
    of [σ] are as they were, and a task that is new holds a deferred that is
    new and pending, its own. *)
Record begins (σ σ' : State) : Prop := {
  bg_promises : forall d q, promises σ !! d = Some q -> promises σ' !! d = Some q;
  bg_tasks : forall i t, tasks σ !! i = Some t -> tasks σ' !! i = Some t;
  bg_new : forall i t d,
    tasks σ' !! i = Some t -> target t = Some d ->
    tasks σ !! i = Some t \/
    (length (promises σ) <= d /\ promises σ' !! d = Some (Deferred Pending));
  bg_distinct : forall i j t t' d,
    tasks σ' !! i = Some t -> tasks σ' !! j = Some t' ->
    target t = Some d -> target t' = Some d ->
    tasks σ !! i <> Some t -> tasks σ !! j <> Some t' -> i = j
}.

(** A deferred or an aggregate that is settled in [σ] is the same in [σ']. *)
Definition keeps_settled (σ σ' : State) : Prop :=
  forall d q, promises σ !! d = Some q -> pstate q <> Pending ->
    promises σ' !! d = Some q.

(** ** Further cases

    Hosts and inputs at which the statements about loading are looked at. *)
Module Cases.

(** The host of the session, with other answers of the file system and
    another selection. *)
Definition host (read : Error + text) (listing : option Error * option (list Entry))
    (selection : list text) : Host :=
  {| exists_ := fun _ => (None, true);
     readAsText := fun _ => read;
     lessParse := fun src _ => inr src;
     getContents := fun _ => listing;
     prefsThemes := Some selection;
     activeEditor := Some (Some 0) |}.

(** The entries of a directory: two theme files, a text file and a
    directory whose name ends like a theme file. *)
Definition entries : list Entry :=
  [ {| entry_name := str "dark.less"; isFile := true |};
    {| entry_name := str "notes.txt"; isFile := true |};
    {| entry_name := str "old.less"; isFile := false |};
    {| entry_name := str "light.css"; isFile := true |} ].

(** No source can be read. *)
Definition unreadable : Host :=
  host (inl (HostError 2)) (None, Some []) [str "dark"].


(** The directory is listed. *)
Definition listed : Host :=
  host (inr (str "body{}")) (None, Some entries) [].

(** The directory cannot be listed. *)
Definition unlisted : Host :=
  host (inr (str "body{}")) (Some (HostError 3), Some entries) [].


(** [loadDirectory] has been called. *)
Definition listing (h : Host) : State :=
  (loadDirectory h (Some (str "/themes")) initial).2.

(** The theme of the session is applied and loaded again; its source
    cannot be read. *)
Definition rereading : State := (refresh unreadable (Some true) Session.shown).1.

End Cases.

(** * Properties *)

(** ** The matcher *)

Section Matcher.

Implicit Types (r : regex) (s t : text) (k : text -> option nat).

Lemma greedy_star_bounded cls k : bounded k -> bounded (greedy_star cls k).
Proof.
  intros Hk s. induction s as [|c t IH]; intros n; simpl.
  - apply Hk.
  - destruct (cls c); [|apply Hk].
    destruct (greedy_star cls k t) as [m|] eqn:E.
    + intros [= <-]. specialize (IH m eq_refl). lia.
    + apply Hk.
Qed.

Lemma lazy_star_bounded cls k : bounded k -> bounded (lazy_star cls k).
Proof.
  intros Hk s. induction s as [|c t IH]; intros n; simpl.
  - destruct (k []) eqn:E; [|done]. intros [= <-]. by apply Hk in E.
  - destruct (k (c :: t)) eqn:E.
    + intros [= <-]. by apply Hk in E.
    + destruct (cls c); [|done].
      intros (m & Hm & ->)%fmap_Some. apply IH in Hm. simpl. lia.
Qed.

Lemma exec_bounded r : bounded (exec r).
Proof.
  induction r as [|[c|cls|cls] r IH]; simpl.
  - intros s n [= <-]. lia.
  - intros [|x t] n; [done|]. destruct (Ascii.eqb x c); [|done].
    intros (m & Hm & ->)%fmap_Some. apply IH in Hm. simpl. lia.
  - by apply greedy_star_bounded.
  - by apply lazy_star_bounded.
Qed.








(** What a greedy star reports comes from its continuation, run after a run
    of characters of the class. *)
Lemma greedy_star_inv cls k s n :
  greedy_star cls k s = Some n ->
  exists m, m <= n /\ k (drop m s) = Some (n - m) /\
            Forall (fun c => cls c = true) (take m s).
Proof.
  revert n. induction s as [|c t IH]; intros n; simpl.
  - intros H. exists 0. rewrite Nat.sub_0_r. split; [lia|]. by split.
  - destruct (cls c) eqn:Ec.
    + destruct (greedy_star cls k t) as [j|] eqn:E.
      * intros [= <-]. destruct (IH j eq_refl) as (m & Hm & Hk & Hall).
        exists (S m). split; [lia|]. split; [done|]. by constructor.
      * intros H. exists 0. rewrite Nat.sub_0_r. split; [lia|]. by split.
    + intros H. exists 0. rewrite Nat.sub_0_r. split; [lia|]. by split.
Qed.

(** The scan of [remove_from]: passing over [k] characters is dropping
    them. *)
Lemma remove_from_drop r (j : nat) s :
  j <= length s -> remove_from r j s = remove_from r 0 (drop j s).
Proof.
  revert j. induction s as [|c t IH]; intros [|j] Hj; simpl in *; try done; [lia|].
  rewrite IH; [done|lia].
Qed.

Lemma remove_all_nil r :
  exec r [] = None -> remove_all r [] = ([], []).
Proof. unfold remove_all; simpl. by intros ->. Qed.

Lemma remove_all_match r c t n :
  exec r (c :: t) = Some (S n) ->
  remove_all r (c :: t) =
    ((remove_all r (drop n t)).1,
     take (S n) (c :: t) :: (remove_all r (drop n t)).2).
Proof.
  intros H. unfold remove_all. simpl remove_from at 1. rewrite H.
  rewrite remove_from_drop.
  - by destruct (remove_from r 0 (drop n t)).
  - apply exec_bounded in H. simpl in H. lia.
Qed.

Lemma remove_all_skip r c t :
  exec r (c :: t) = None ->
  remove_all r (c :: t) = (c :: (remove_all r t).1, (remove_all r t).2).
Proof.
  intros H. unfold remove_all. simpl. rewrite H.
  by destruct (remove_from r 0 t).
Qed.

End Matcher.

(** ** Texts *)

Section Texts.
Implicit Types (pat s t : text).

Lemma starts_with_spec pat s :
  starts_with pat s = true <-> exists post, s = pat ++ post.
Proof.
  revert s. induction pat as [|p pat IH]; intros s; simpl.
  - split; [intros _; by exists s|done].
  - destruct s as [|c s]; [split; [done|intros [? [=]]]|].
    rewrite andb_true_iff, IH. split.
    + intros [->%Ascii.eqb_eq [post ->]]. by exists post.
    + intros [post [= <- ->]]. split; [apply Ascii.eqb_refl|by exists post].
Qed.

Lemma contains_spec pat s :
  contains pat s = true <-> exists pre post, s = pre ++ pat ++ post.
Proof.
  induction s as [|c s IH]; simpl; rewrite orb_true_iff, starts_with_spec.
  - split.
    + intros [[post ->]|[=]]. by exists [], post.
    + intros ([|] & post & H); [left; by exists post|done].
  - rewrite IH. split.
    + intros [[post ->]|(pre & post & ->)]; [by exists [], post|by exists (c :: pre), post].
    + intros ([|x pre] & post & H); simpl in H.
      * left. by exists post.
      * injection H as <- ->. right. by exists pre, post.
Qed.

Lemma contains_cons pat c s :
  contains pat (c :: s) = false -> contains pat s = false.
Proof. simpl. by intros [_ ?]%orb_false_iff. Qed.

Lemma contains_drop pat (n : nat) s :
  contains pat s = false -> contains pat (drop n s) = false.
Proof.
  revert s. induction n as [|n IH]; intros [|c s]; simpl; try done.
  intros [_ ?]%orb_false_iff. by apply IH.
Qed.

Lemma contains_app_l pat s t :
  contains pat (s ++ t) = false -> contains pat s = false.
Proof.
  intros H. apply not_true_is_false. intros (pre & post & ->)%contains_spec.
  apply not_true_iff_false in H. apply H, contains_spec.
  exists pre, (post ++ t). by rewrite <- !app_assoc.
Qed.

Lemma contains_app_r pat s t :
  contains pat (s ++ t) = false -> contains pat t = false.
Proof.
  intros H. apply not_true_is_false. intros (pre & post & ->)%contains_spec.
  apply not_true_iff_false in H. apply H, contains_spec.
  exists (s ++ pre), post. by rewrite <- !app_assoc.
Qed.

End Texts.


Section Comments.
Implicit Types (s t : text).

Lemma exec_lits (L : text) r s :
  exec (map Chr L ++ r) s =
    if starts_with L s then (fun n => length L + n) <$> exec r (drop (length L) s)
    else None.
Proof.
  revert s. induction L as [|p L IH]; intros s; simpl.
  - rewrite drop_0. by destruct (exec r s).
  - destruct s as [|c s]; [done|]. destruct (Ascii.eqb c p); [|done]. simpl.
    rewrite IH. destruct (starts_with L s); [|done].
    by destruct (exec r (drop (length L) s)).
Qed.

Lemma lazy_star_unfold cls k s :
  lazy_star cls k s =
    match k s with
    | Some n => Some n
    | None =>
        match s with
        | c :: t => if cls c then S <$> lazy_star cls k t else None
        | [] => None
        end
    end.
Proof. by destruct s. Qed.


Lemma exec_comment s :
  exec commentRegex s =
    if starts_with (str "/*") s then (fun n => 2 + n) <$> closer (drop 2 s)
    else None.
Proof. unfold commentRegex, lits. by rewrite exec_lits. Qed.

Lemma exec_closing s :
  exec (lits "*/") s = if starts_with (str "*/") s then Some 2 else None.
Proof.
  unfold lits. rewrite <- (app_nil_r (map Chr _)), exec_lits.
  by destruct (starts_with _ s).
Qed.

Lemma closer_unfold s :
  closer s =
    if starts_with (str "*/") s then Some 2
    else match s with
         | _ :: t => S <$> closer t
         | [] => None
         end.
Proof.
  unfold closer. rewrite lazy_star_unfold, exec_closing.
  destruct (starts_with _ s); [done|]. by destruct s.
Qed.

Lemma closer_contains s : is_Some (closer s) <-> contains (str "*/") s = true.
Proof.
  induction s as [|c t IH]; rewrite closer_unfold.
  - simpl. split; [by intros [? ?]|done].
  - cbn [contains]. destruct (starts_with (str "*/") (c :: t)); simpl.
    + split; [done|by eexists].
    + rewrite <- IH. rewrite fmap_is_Some. done.
Qed.

Lemma closer_none s : contains (str "*/") s = false -> closer s = None.
Proof.
  intros H. destruct (closer s) eqn:E; [|done].
  assert (is_Some (closer s)) as ?%closer_contains by (by eexists). congruence.
Qed.

Lemma exec_comment_pos s : exec commentRegex s <> Some 0.
Proof.
  rewrite exec_comment. destruct (starts_with _ s); [|done].
  by destruct (closer _).
Qed.

Lemma stripComments_nil : stripComments [] = [].
Proof. done. Qed.

Lemma stripComments_match c t n :
  exec commentRegex (c :: t) = Some (S n) ->
  stripComments (c :: t) = stripComments (drop n t).
Proof. intros H. unfold stripComments. by rewrite (remove_all_match _ _ _ _ H). Qed.

Lemma stripComments_skip c t :
  exec commentRegex (c :: t) = None ->
  stripComments (c :: t) = c :: stripComments t.
Proof. intros H. unfold stripComments. by rewrite (remove_all_skip _ _ _ H). Qed.

(** Without a closing star-slash there is nothing to remove. *)
Lemma stripComments_no_closer s :
  contains (str "*/") s = false -> stripComments s = s.
Proof.
  induction s as [|c t IH]; [done|]. intros H.
  rewrite stripComments_skip.
  - f_equal. apply IH. by apply contains_cons in H.
  - rewrite exec_comment. destruct (starts_with _ (c :: t)); [|done].
    rewrite closer_none; [done|]. by apply (contains_drop _ 2).
Qed.

(** C3, as amended.  Removing the comments a second time changes nothing,
    for every text in which no comment opener is directly preceded by a
    slash.  (Without that condition the removal of a comment can bring a
    slash and a star together, and the result holds a comment again.) *)
Theorem stripComments_idempotent_unless_joined x :
  contains (str "//*") x = false ->
  stripComments (stripComments x) = stripComments x.
Proof.
  induction x as [x IH] using (induction_ltof1 _ (@length ascii)).
  unfold ltof in IH. intros Hx. destruct x as [|c t]; [done|].
  assert (Ht : contains (str "//*") t = false) by by apply contains_cons in Hx.
  destruct (exec commentRegex (c :: t)) as [[|m]|] eqn:E.
  - by apply exec_comment_pos in E.
  - (* a comment starts here: both passes go on behind it *)
    rewrite (stripComments_match _ _ _ E). apply IH.
    + rewrite length_drop. simpl. lia.
    + by apply contains_drop.
  - (* no comment starts here, nor will one after the first pass *)
    rewrite (stripComments_skip _ _ E).
    rewrite stripComments_skip; [rewrite IH; [done|simpl; lia|done]|].
    rewrite exec_comment.
    destruct (starts_with (str "/*") (c :: stripComments t)) eqn:Hop; [|done].
    apply fmap_None, eq_None_not_Some. intros Hcl%closer_contains.
    simpl in Hop, Hcl.
    destruct (Ascii.eqb_spec c "/") as [->|]; [|done].
    destruct t as [|d t']; [done|].
    destruct (exec commentRegex (d :: t')) as [[|j]|] eqn:E'.
    + by apply exec_comment_pos in E'.
    + (* the rest starts with a comment: a slash stands before its opener *)
      rewrite exec_comment in E'.
      destruct (starts_with (str "/*") (d :: t')) eqn:Hd; [|done].
      apply starts_with_spec in Hd as [post Hd]. rewrite Hd in Hx.
      by vm_compute in Hx.
    + (* the rest starts with a star: the opener found no closer *)
      rewrite (stripComments_skip _ _ E') in Hop, Hcl. simpl in Hop, Hcl.
      destruct (Ascii.eqb_spec d "*") as [->|]; [|done].
      rewrite exec_comment in E. simpl in E. apply fmap_None in E.
      rewrite drop_0 in E, Hcl.
      assert (Hno : contains (str "*/") t' = false).
      { apply not_true_is_false. intros Hc%closer_contains.
        rewrite E in Hc. by destruct Hc. }
      rewrite (stripComments_no_closer _ Hno) in Hcl.
      change ["*"; "/"] with (str "*/") in Hcl. congruence.
Qed.

End Comments.

Section Scrollbars.
Implicit Types (s t pre post body : text).



(** Every collected match is a piece of the scanned text. *)
Lemma remove_from_infix r (j : nat) s e :
  e ∈ (remove_from r j s).2 -> exists e1 e2, s = e1 ++ e ++ e2.
Proof.
  revert j. induction s as [|c t IH]; intros j; simpl.
  - destruct j; [destruct (exec r [])|]; simpl; try by intros ?%elem_of_nil.
    intros ->%list_elem_of_singleton. by exists [], [].
  - destruct j as [|j].
    + destruct (exec r (c :: t)) as [[|n]|].
      * destruct (remove_from r 0 t) as [out ms] eqn:E. simpl.
        intros [->|He]%elem_of_cons; [by exists [], (c :: t)|].
        destruct (IH 0) as (e1 & e2 & ->); [by rewrite E|]. by exists (c :: e1), e2.
      * destruct (remove_from r n t) as [out ms] eqn:E. simpl.
        intros [->|He]%elem_of_cons.
        -- exists [], (drop n t). simpl. by rewrite take_drop.
        -- destruct (IH n) as (e1 & e2 & ->); [by rewrite E|]. by exists (c :: e1), e2.
      * destruct (remove_from r 0 t) as [out ms] eqn:E. simpl. intros He.
        destruct (IH 0) as (e1 & e2 & ->); [by rewrite E|]. by exists (c :: e1), e2.
    + intros He. destruct (IH j He) as (e1 & e2 & ->). by exists (c :: e1), e2.
Qed.


End Scrollbars.

Section ScrollbarRules.




End ScrollbarRules.

(** ** States *)

Ltac st_simpl :=
  cbn [loadedThemes heap dom nextNode promises tasks trace
       set_loadedThemes set_heap set_dom set_nextNode set_promises set_tasks
       set_trace emit spawn newPromise fst snd file className css scrollbar
       with_scrollbar with_css].
Tactic Notation "st_simpl" "in" hyp(H) :=
  cbn [loadedThemes heap dom nextNode promises tasks trace
       set_loadedThemes set_heap set_dom set_nextNode set_promises set_tasks
       set_trace emit spawn newPromise fst snd file className css scrollbar
       with_scrollbar with_css] in H.

Lemma view_only_refl σ : view_only σ σ.
Proof.
  split; try done.
  - exists []. by rewrite app_nil_r.
  - exists []. by rewrite app_nil_r.
Qed.

Lemma view_only_trans σ1 σ2 σ3 :
  view_only σ1 σ2 -> view_only σ2 σ3 -> view_only σ1 σ3.
Proof.
  intros [? ? ? ? ? (ts & ? & ?) (evs & ? & ?)]
         [? ? ? ? ? (ts' & ? & ?) (evs' & ? & ?)].
  split; try congruence.
  - exists (ts ++ ts'). split; [|by apply Forall_app].
    rewrite app_assoc. congruence.
  - exists (evs ++ evs'). split; [|by apply Forall_app].
    rewrite app_assoc. congruence.
Qed.

Lemma view_only_set_promises f σ :
  (forall ps, length (f ps) = length ps) -> view_only σ (set_promises f σ).
Proof.
  intros Hf. split; simpl; try done.
  - exists []. by rewrite app_nil_r.
  - exists []. by rewrite app_nil_r.
Qed.

Lemma onRefreshed_view_only h σ : view_only σ (onRefreshed h σ).
Proof.
  unfold onRefreshed. destruct (activeEditor h) as [[c|]|]; try apply view_only_refl.
  split; simpl; try done.
  - exists [TTimeout c]. split; [done|]. by repeat constructor.
  - eexists [_; _; _]. rewrite <- !app_assoc. split; [done|]. by repeat constructor.
Qed.

Lemma update_when_view_only h σ q : view_only σ (update_when h σ q).
Proof.
  unfold update_when.
  destruct (promises σ !! q) as [[?|srcs [| |] onDone]|]; try apply view_only_refl.
  destruct (when_state _ _); try apply view_only_refl.
  - eapply view_only_trans.
    + apply view_only_set_promises. intros. apply length_insert.
    + destruct onDone; [apply onRefreshed_view_only|apply view_only_refl].
  - apply view_only_set_promises. intros. apply length_insert.
Qed.

Lemma settle_view_only h d st σ : view_only σ (settle h d st σ).
Proof.
  unfold settle. destruct (promises σ !! d) as [[[| |]|]|]; try apply view_only_refl.
  eapply view_only_trans.
  { apply (view_only_set_promises <[d:=Deferred st]>). intros. apply length_insert. }
  generalize (seq 0 (length (promises (set_promises <[d:=Deferred st]> σ)))).
  generalize (set_promises <[d:=Deferred st]> σ).
  intros σ' qs. revert σ'. induction qs as [|q qs IH]; intros σ'; simpl.
  - apply view_only_refl.
  - eapply view_only_trans; [apply update_when_view_only|apply IH].
Qed.

Lemma update_when_deferred h σ q d st :
  promises σ !! d = Some (Deferred st) ->
  promises (update_when h σ q) !! d = Some (Deferred st).
Proof.
  intros Hd. unfold update_when.
  destruct (promises σ !! q) as [[?|srcs [| |] onDone]|] eqn:Hq; try done.
  assert (q <> d) by (intros ->; congruence).
  destruct (when_state _ _); try done.
  - assert (Hp : promises (set_promises <[q:=WhenAll srcs (Resolved args) false]> σ) !! d
                 = Some (Deferred st)).
    { simpl. by rewrite list_lookup_insert_ne. }
    destruct onDone; [|done].
    unfold onRefreshed. by destruct (activeEditor h) as [[c|]|].
  - simpl. by rewrite list_lookup_insert_ne.
Qed.

Lemma settle_lookup h d st σ :
  promises σ !! d = Some (Deferred Pending) ->
  promises (settle h d st σ) !! d = Some (Deferred st).
Proof.
  intros Hd. unfold settle. rewrite Hd.
  assert (Hp : promises (set_promises <[d:=Deferred st]> σ) !! d = Some (Deferred st)).
  { simpl. apply list_lookup_insert_eq. by apply lookup_lt_Some in Hd. }
  revert Hp.
  generalize (seq 0 (length (promises (set_promises <[d:=Deferred st]> σ)))).
  generalize (set_promises <[d:=Deferred st]> σ).
  intros σ' qs. revert σ'. induction qs as [|q qs IH]; intros σ' Hp; simpl; [done|].
  by apply IH, update_when_deferred.
Qed.


Lemma quiet_refl σ : quiet σ σ.
Proof.
  split; try done.
  - intros l theme m ? ?. by exists theme.
  - exists []. by rewrite app_nil_r.
Qed.

Lemma quiet_trans σ1 σ2 σ3 : quiet σ1 σ2 -> quiet σ2 σ3 -> quiet σ1 σ3.
Proof.
  intros [? ? Hh Ht (evs & ? & ?)] [? ? Hh' Ht' (evs' & ? & ?)].
  split; try congruence.
  - intros l theme m Hl Hm. destruct (Hh' _ _ _ Hl Hm) as (t0 & ? & ?). eauto.
  - intros j t Hj Hap. eauto.
  - exists (evs ++ evs'). split; [|by apply Forall_app].
    rewrite app_assoc. congruence.
Qed.

Lemma view_only_quiet σ σ' : view_only σ σ' -> quiet σ σ'.
Proof.
  intros [? Hh ? ? ? (ts & Ht & Hts) (evs & He & Hevs)].
  split; try done.
  - intros l theme m. rewrite Hh. eauto.
  - intros j t. rewrite Ht. intros [?|[_ Hin]]%lookup_app_Some; [done|].
    apply list_elem_of_lookup_2 in Hin.
    rewrite Forall_forall in Hts. apply Hts in Hin. destruct t; simpl in *; tauto.
  - exists evs. split; [done|]. eapply Forall_impl; [done|]. intros []; simpl; tauto.
Qed.

Lemma quiet_emit e σ : ~ is_remove e -> quiet σ (emit e σ).
Proof.
  intros He. split; try done.
  - intros l theme m ? ?. by exists theme.
  - exists [e]. split; [done|]. by constructor.
Qed.

Lemma quiet_spawn t σ : ~ is_apply t -> quiet σ (spawn t σ).
Proof.
  intros Ht. split; try done.
  - intros l theme m ? ?. by exists theme.
  - simpl. intros j t' [?|[_ Hin]]%lookup_app_Some; [done|].
    apply list_elem_of_lookup_2, list_elem_of_singleton in Hin. by subst.
  - exists []. by rewrite app_nil_r.
Qed.

Lemma quiet_task i t σ : ~ is_apply t -> quiet σ (set_tasks <[i := t]> σ).
Proof.
  intros Ht. split; try done.
  - intros l theme m ? ?. by exists theme.
  - simpl. intros j t'. destruct (decide (i = j)) as [->|].
    + intros H%list_lookup_insert_Some. destruct H as [(_ & <- & _)|[? _]]; done.
    + by rewrite list_lookup_insert_ne.
  - exists []. by rewrite app_nil_r.
Qed.

Lemma quiet_set_promises f σ : quiet σ (set_promises f σ).
Proof.
  split; try done.
  - intros l theme m ? ?. by exists theme.
  - exists []. by rewrite app_nil_r.
Qed.

Lemma quiet_set_loadedThemes f σ : quiet σ (set_loadedThemes f σ).
Proof.
  split; try done.
  - intros l theme m ? ?. by exists theme.
  - exists []. by rewrite app_nil_r.
Qed.

Lemma quiet_alloc theme σ :
  css theme = None -> quiet σ (set_heap (fun hp => hp ++ [theme]) σ).
Proof.
  intros Hc. split; try done.
  - simpl. intros l t m [?|[_ Hin]]%lookup_app_Some; [by exists t|].
    apply list_elem_of_lookup_2, list_elem_of_singleton in Hin. subst. congruence.
  - exists []. by rewrite app_nil_r.
Qed.

Lemma quiet_with_scrollbar v l σ :
  quiet σ (set_heap (alter (with_scrollbar v) l) σ).
Proof.
  split; try done.
  - simpl. intros l' t m. destruct (decide (l = l')) as [->|].
    + rewrite list_lookup_alter_eq. destruct (heap σ !! l') as [t0|]; [|done].
      simpl. intros [= <-] ?. by exists t0.
    + rewrite list_lookup_alter_ne by done. intros ? ?. by exists t.
  - exists []. by rewrite app_nil_r.
Qed.

Create HintDb quiet.
#[local] Hint Resolve quiet_refl quiet_emit quiet_spawn quiet_task
  quiet_set_promises quiet_set_loadedThemes quiet_alloc quiet_with_scrollbar
  : quiet.
#[local] Hint Extern 1 (~ is_apply _) => (simpl; tauto) : quiet.
#[local] Hint Extern 1 (~ is_remove _) => (simpl; tauto) : quiet.

Ltac quiet_last :=
  first [ apply quiet_emit; simpl; tauto
        | apply quiet_spawn; simpl; tauto
        | apply quiet_task; simpl; tauto
        | apply quiet_set_promises
        | apply quiet_set_loadedThemes
        | apply quiet_with_scrollbar
        | apply quiet_alloc; assumption ].
Ltac quiet_step := eapply quiet_trans; [|quiet_last].

Lemma settle_quiet h d st σ : quiet σ (settle h d st σ).
Proof. apply view_only_quiet, settle_view_only. Qed.

Lemma onRefreshed_quiet h σ : quiet σ (onRefreshed h σ).
Proof. apply view_only_quiet, onRefreshed_view_only. Qed.

Ltac quiet_last ::=
  first [ apply quiet_emit; simpl; tauto
        | apply quiet_spawn; simpl; tauto
        | apply quiet_task; simpl; tauto
        | apply quiet_set_promises
        | apply quiet_set_loadedThemes
        | apply quiet_with_scrollbar
        | apply quiet_alloc; assumption
        | apply settle_quiet
        | apply onRefreshed_quiet ].
#[local] Hint Resolve settle_quiet onRefreshed_quiet : quiet.

Lemma startLoad_quiet theme σ : quiet σ (startLoad theme σ).1.
Proof.
  unfold startLoad. destruct (theme ≫= _) as [[l t]|]; [|apply quiet_refl].
  unfold newPromise. cbn [fst snd]. do 2 quiet_step. eauto with quiet.
Qed.

Lemma startLoads_quiet themes σ : quiet σ (startLoads themes σ).1.
Proof.
  revert σ. induction themes as [|theme rest IH]; intros σ; cbn [startLoads].
  - apply quiet_refl.
  - pose proof (startLoad_quiet theme σ) as H.
    destruct (startLoad theme σ) as [σ1 [p|e]]; [|done].
    pose proof (IH σ1) as H'.
    destruct (startLoads rest σ1) as [σ2 [ps|e]]; by eapply quiet_trans.
Qed.

Lemma loadCurrentThemes_quiet h σ : quiet σ (loadCurrentThemes h σ).1.
Proof.
  unfold loadCurrentThemes. destruct (getCurrentThemes h σ) as [themes|e]; [|apply quiet_refl].
  pose proof (startLoads_quiet themes σ) as H.
  destruct (startLoads themes σ) as [σ1 [ps|e]]; [|done].
  unfold newPromise. cbn [fst snd]. by quiet_step.
Qed.

Lemma refresh_quiet h force σ : quiet σ (refresh h force σ).1.
Proof.
  unfold refresh. destruct force as [[|]|]; try apply onRefreshed_quiet.
  pose proof (loadCurrentThemes_quiet h σ) as H.
  destruct (loadCurrentThemes h σ) as [σ1 [a|e]]; [|done].
  destruct (promises σ1 !! a) as [[?|srcs [| |] ?]|]; cbn [fst snd]; try done.
  - by quiet_step.
  - by quiet_step.
Qed.

Lemma loadFile_quiet h fileName options σ :
  quiet σ (loadFile h fileName options σ).2.
Proof.
  unfold loadFile, newPromise. cbn [fst snd]. do 2 quiet_step. eauto with quiet.
Qed.

Lemma loadThemesFiles_quiet h path files σ :
  quiet σ (loadThemesFiles h path files σ).2.
Proof.
  revert σ. induction files as [|f rest IH]; intros σ; cbn [loadThemesFiles].
  - apply quiet_refl.
  - pose proof (loadFile_quiet h (path ++ str "/" ++ f) Options.none σ) as H.
    destruct (loadFile h _ Options.none σ) as [d σ1].
    pose proof (IH σ1) as H'.
    destruct (loadThemesFiles h path rest σ1) as [ds σ2]. by eapply quiet_trans.
Qed.

Lemma loadDirectory_quiet h path σ : quiet σ (loadDirectory h path σ).2.
Proof.
  unfold loadDirectory, newPromise. destruct (falsy path); cbn [fst snd].
  - eauto with quiet.
  - do 2 quiet_step. eauto with quiet.
Qed.

Lemma loadPackage_quiet h pkg σ : quiet σ (loadPackage h pkg σ).2.
Proof. apply loadFile_quiet. Qed.

Lemma newTheme_css f options theme : newTheme f options = Ok theme -> css theme = None.
Proof.
  unfold newTheme. destruct (if falsy _ then _ else _); simpl; [|done].
  by intros [= <-].
Qed.

Lemma onExists_quiet h f options currentThemes d σ :
  quiet σ (onExists h f options currentThemes d σ).
Proof.
  unfold onExists. destruct (exists_ h (_path f)) as [err [|]].
  - destruct (newTheme f options) as [theme|e] eqn:E; [|eauto with quiet].
    apply newTheme_css in E.
    set (σ1 := set_loadedThemes _ _).
    assert (H1 : quiet σ σ1) by (unfold σ1; quiet_step; eauto with quiet).
    destruct (bool_decide _).
    + pose proof (refresh_quiet h (Some true) σ1) as H2.
      destruct (refresh h (Some true) σ1) as [σ2 [[]|e]]; simpl in H2.
      * quiet_step. by eapply quiet_trans.
      * quiet_step. by eapply quiet_trans.
    + by quiet_step.
  - destruct err; eauto with quiet.
Qed.

Lemma onContents_quiet h path d σ : quiet σ (onContents h path d σ).
Proof.
  unfold onContents. destruct (getContents h path) as [[e|] entries].
  - eauto with quiet.
  - pose proof (loadThemesFiles_quiet h path
      (entry_name <$> filter (fun e => isFileTypeValid e = true) (default [] entries)) σ) as H.
    destruct (loadThemesFiles _ _ _ σ) as [ds σ1]. by quiet_step.
Qed.

(** ** The style sheets of a reachable state *)

Lemma wf_initial : wf initial.
Proof. split; intros *; simpl; by rewrite ?lookup_nil. Qed.

Lemma wf_quiet σ σ' : wf σ -> quiet σ σ' -> wf σ'.
Proof.
  intros [Ha Hd Hc Ho] [Hdom Hnext Hheap Htasks (evs & Htr & _)].
  split.
  - intros i l n p Hi. apply Htasks in Hi; [|done].
    destruct (Ha _ _ _ _ Hi) as (? & style & ? & ?).
    rewrite Hnext, Hdom, Htr. split; [done|]. exists style. split; [done|].
    apply elem_of_app. by left.
  - intros i j l n p l' p' Hi Hj.
    apply Htasks in Hi; [|done]. apply Htasks in Hj; [|done]. eauto.
  - intros l theme m Hl Hm.
    destruct (Hheap _ _ _ Hl Hm) as (theme0 & Hl0 & Hm0).
    destruct (Hc _ _ _ Hl0 Hm0) as (? & ? & Hno).
    rewrite Hnext, Hdom. split; [done|]. split; [done|].
    intros i l' p Hi. apply Htasks in Hi; [|done]. by eapply Hno.
  - intros l1 l2 t1 t2 m H1 H2 Hm1 Hm2.
    destruct (Hheap _ _ _ H1 Hm1) as (? & ? & ?).
    destruct (Hheap _ _ _ H2 Hm2) as (? & ? & ?). eauto.
Qed.

(** A step that is neither the insertion of a sheet nor the last callback
    of a pipeline is quiet. *)
Lemma step_quiet h i σ :
  (forall l style p, tasks σ !! i <> Some (TInsert l style p)) ->
  (forall l n p, tasks σ !! i <> Some (TApply l n p)) ->
  quiet σ (step h i σ).
Proof.
  intros Hins Hap. unfold step.
  destruct (tasks σ !! i) as [t|] eqn:Hi; [|apply quiet_refl].
  assert (H0 : quiet σ (set_tasks <[i:=TDone]> σ)) by (apply quiet_task; simpl; tauto).
  destruct t.
  - eapply quiet_trans; [done|]. apply onExists_quiet.
  - destruct (heap _ !! l) as [theme|]; [|done].
    destruct (readAsText h _).
    + by quiet_step.
    + by do 2 quiet_step.
  - destruct (heap _ !! l) as [theme|]; [|done].
    destruct (lessParse h _ _).
    + by do 2 quiet_step.
    + by do 2 quiet_step.
  - by destruct (Hins l style p).
  - by destruct (Hap l styleNode p).
  - eapply quiet_trans; [done|]. apply onContents_quiet.
  - by do 2 quiet_step.
  - done.
Qed.

(** The step that inserts the compiled sheet. *)
Lemma step_insert h i σ l style p :
  tasks σ !! i = Some (TInsert l style p) ->
  step h i σ =
    set_tasks <[i := TApply l (nextNode σ) p]>
      (emit (EvAddStyle (nextNode σ) style)
         (set_nextNode S
            (set_dom (fun d => d ++ [(nextNode σ, style)])
               (set_tasks <[i := TDone]> σ)))).
Proof. intros Hi. unfold step. by rewrite Hi. Qed.

Lemma wf_insert h i σ l style p :
  tasks σ !! i = Some (TInsert l style p) -> wf σ -> wf (step h i σ).
Proof.
  intros Hi [Ha Hd Hc Ho]. rewrite (step_insert _ _ _ _ _ _ Hi).
  assert (Hlt : i < length (tasks σ)) by by apply lookup_lt_Some in Hi.
  assert (Hold : forall j l' n' p',
    <[i:=TApply l (nextNode σ) p]> (<[i:=TDone]> (tasks σ)) !! j = Some (TApply l' n' p') ->
    (j = i /\ n' = nextNode σ) \/ (j <> i /\ tasks σ !! j = Some (TApply l' n' p'))).
  { intros j l' n' p'. destruct (decide (i = j)) as [<-|].
    - rewrite list_lookup_insert_eq by by rewrite length_insert.
      intros [= <- <- <-]. by left.
    - rewrite !list_lookup_insert_ne by done. by right. }
  split; st_simpl.
  - intros j l' n' p' [[-> ->]|[_ Hj]]%Hold.
    + split; [lia|]. exists style. split; apply elem_of_app; right; by left.
    + destruct (Ha _ _ _ _ Hj) as (? & style' & ? & ?). split; [lia|].
      exists style'. split; apply elem_of_app; by left.
  - intros j k l1 n1 p1 l2 p2 [[-> ->]|[? Hj]]%Hold [[-> Hn]|[? Hk]]%Hold; try done.
    + apply Ha in Hk. lia.
    + apply Ha in Hj. lia.
    + eauto.
  - intros l' theme m Hl Hm. destruct (Hc _ _ _ Hl Hm) as (? & [s ?] & Hno).
    split; [lia|]. split; [exists s; apply elem_of_app; by left|].
    intros j l2 p2 [[-> ->]|[_ Hj]]%Hold; [lia|]. by eapply Hno.
  - done.
Qed.

Lemma step_apply h i σ l n p theme :
  tasks σ !! i = Some (TApply l n p) ->
  heap σ !! l = Some theme ->
  step h i σ = settle h p (Resolved [l]) (applied i l n theme σ).
Proof. intros Hi Hl. unfold step, applied. rewrite Hi. st_simpl. by rewrite Hl. Qed.

Lemma applied_heap i l n theme σ :
  heap σ !! l = Some theme ->
  heap (applied i l n theme σ) = <[l := with_css n theme]> (heap σ).
Proof.
  intros Hl. unfold applied. destruct (css theme); st_simpl.
  all: apply list_eq; intros j; destruct (decide (j = l)) as [->|].
  all: rewrite ?list_lookup_alter_eq, ?list_lookup_insert_eq, ?Hl,
         ?list_lookup_alter_ne, ?list_lookup_insert_ne; try done.
  all: by apply lookup_lt_Some in Hl.
Qed.

Lemma applied_tasks i l n theme σ :
  tasks (applied i l n theme σ) = <[i := TDone]> (tasks σ).
Proof. unfold applied. by destruct (css theme). Qed.

Lemma applied_nextNode i l n theme σ :
  nextNode (applied i l n theme σ) = nextNode σ.
Proof. unfold applied. by destruct (css theme). Qed.

Lemma applied_dom i l n theme σ :
  dom (applied i l n theme σ) =
    match css theme with
    | Some old => filter (fun x => x.1 ≠ old) (dom σ)
    | None => dom σ
    end.
Proof. unfold applied. by destruct (css theme). Qed.

Lemma applied_trace i l n theme σ :
  trace (applied i l n theme σ) =
    trace σ ++ match css theme with
               | Some old => [EvRemoveStyle old]
               | None => []
               end.
Proof. unfold applied. destruct (css theme); st_simpl; by rewrite ?app_nil_r. Qed.

Lemma applied_dom_keeps i l n theme σ m style :
  (m, style) ∈ dom σ -> css theme <> Some m ->
  (m, style) ∈ dom (applied i l n theme σ).
Proof.
  intros Hin Hne. rewrite applied_dom. destruct (css theme) as [old|]; [|done].
  apply list_elem_of_filter. split; [|done]. simpl. congruence.
Qed.

Lemma wf_applied i σ l n p theme :
  tasks σ !! i = Some (TApply l n p) ->
  heap σ !! l = Some theme ->
  wf σ -> wf (applied i l n theme σ).
Proof.
  intros Hi Hl [Ha Hd Hc Ho].
  assert (Hn : css theme <> Some n).
  { intros Hm. destruct (Hc _ _ _ Hl Hm) as (_ & _ & Hno). by eapply Hno. }
  assert (Hold : forall j t, is_apply t ->
    <[i:=TDone]> (tasks σ) !! j = Some t -> j <> i /\ tasks σ !! j = Some t).
  { intros j t Ht. destruct (decide (i = j)) as [<-|].
    - intros [(_ & <- & _)|[? _]]%list_lookup_insert_Some; done.
    - by rewrite list_lookup_insert_ne. }
  assert (Hheap : forall l' theme' m,
    <[l:=with_css n theme]> (heap σ) !! l' = Some theme' -> css theme' = Some m ->
    (l' = l /\ m = n) \/ (l' <> l /\ heap σ !! l' = Some theme')).
  { intros l' theme' m. destruct (decide (l = l')) as [<-|].
    - rewrite list_lookup_insert_eq by by apply lookup_lt_Some in Hl.
      intros [= <-] [= <-]. by left.
    - rewrite list_lookup_insert_ne by done. by right. }
  split; rewrite ?applied_heap, ?applied_tasks, ?applied_nextNode,
           ?applied_trace by done.
  - intros j l' n' p' [Hj Hj']%Hold; [|done].
    destruct (Ha _ _ _ _ Hj') as (? & style & Hin & ?). split; [done|].
    exists style. split; [|apply elem_of_app; by left].
    apply applied_dom_keeps; [done|]. intros Hm.
    destruct (Hc _ _ _ Hl Hm) as (_ & _ & Hno). by eapply Hno.
  - intros j k l1 n1 p1 l2 p2 [_ Hj]%Hold [_ Hk]%Hold; try done. eauto.
  - intros l' theme' m Hl' Hm.
    destruct (Hheap _ _ _ Hl' Hm) as [[-> ->]|[Hne Hl0]].
    + destruct (Ha _ _ _ _ Hi) as (? & style & Hin & _).
      split; [done|]. split.
      * exists style. by apply applied_dom_keeps.
      * intros j l2 p2 [Hj Hj']%Hold; [|done]. apply Hj. eauto.
    + destruct (Hc _ _ _ Hl0 Hm) as (? & [style Hin] & Hno).
      split; [done|]. split.
      * exists style. apply applied_dom_keeps; [done|].
        intros Hm'. apply Hne. eauto.
      * intros j l2 p2 [_ Hj]%Hold; [|done]. by eapply Hno.
  - intros l1 l2 t1 t2 m H1 H2 Hm1 Hm2.
    destruct (Hheap _ _ _ H1 Hm1) as [[-> Hm]|[? H1']];
      destruct (Hheap _ _ _ H2 Hm2) as [[-> Hm']|[? H2']]; try done.
    + subst m. destruct (Hc _ _ _ H2' Hm2) as (_ & _ & Hno). by destruct (Hno _ _ _ Hi).
    + subst m. destruct (Hc _ _ _ H1' Hm1) as (_ & _ & Hno). by destruct (Hno _ _ _ Hi).
    + eauto.
Qed.

Lemma wf_step h i σ : wf σ -> wf (step h i σ).
Proof.
  intros Hwf.
  destruct (tasks σ !! i) as [t|] eqn:Hi; [|unfold step; by rewrite Hi].
  destruct t; try (eapply wf_quiet; [done|]; apply step_quiet;
                   intros *; rewrite Hi; congruence).
  - by eapply wf_insert.
  - destruct (heap σ !! l) as [theme|] eqn:Hl.
    + rewrite (step_apply _ _ _ _ _ _ _ Hi Hl).
      eapply wf_quiet; [by eapply wf_applied|apply settle_quiet].
    + unfold step. rewrite Hi. st_simpl. rewrite Hl.
      eapply wf_quiet; [done|]. apply quiet_task. simpl. tauto.
Qed.

Lemma reachable_wf σ : reachable σ -> wf σ.
Proof.
  induction 1.
  - apply wf_initial.
  - by apply wf_step.
  - eapply wf_quiet; [done|apply refresh_quiet].
  - eapply wf_quiet; [done|apply loadFile_quiet].
  - eapply wf_quiet; [done|apply loadPackage_quiet].
  - eapply wf_quiet; [done|apply loadDirectory_quiet].
Qed.

Lemma quiet_no_remove σ σ' old :
  quiet σ σ' -> EvRemoveStyle old ∉ drop (length (trace σ)) (trace σ').
Proof.
  intros [_ _ _ _ (evs & -> & Hevs)]. rewrite drop_app_length.
  intros Hin. rewrite Forall_forall in Hevs. by apply Hevs in Hin.
Qed.

Lemma quiet_css σ σ' l theme' m :
  quiet σ σ' -> heap σ' !! l = Some theme' -> css theme' = Some m ->
  css <$> heap σ !! l = Some (Some m).
Proof.
  intros [_ _ Hh _ _] Hl Hm. destruct (Hh _ _ _ Hl Hm) as (t0 & -> & <-). done.
Qed.

(** C2.  In every reachable state, a step of the event loop that releases a
    style node [old] is the last callback of a pipeline of a theme that held
    [old]; the new node [n] of that pipeline was inserted before the step
    (its insertion is in the trace, and both [n] and [old] are in the page),
    it is still in the page after the step, and only this step stores it in
    [theme.css].  Moreover a step stores a handle in a theme only this way:
    a handle held by a theme after a step was held before it, or is the
    inserted node of that last callback. *)
Theorem release_after_insert σ h i :
  reachable σ ->
  let σ' := step h i σ in
  (forall old,
     EvRemoveStyle old ∈ drop (length (trace σ)) (trace σ') ->
     exists l n p theme style oldstyle,
       tasks σ !! i = Some (TApply l n p) /\
       heap σ !! l = Some theme /\ css theme = Some old /\ n <> old /\
       EvAddStyle n style ∈ trace σ /\
       (n, style) ∈ dom σ /\ (old, oldstyle) ∈ dom σ /\
       (n, style) ∈ dom σ' /\
       css <$> heap σ' !! l = Some (Some n)) /\
  (forall l theme' m,
     heap σ' !! l = Some theme' -> css theme' = Some m ->
     css <$> heap σ !! l = Some (Some m) \/
     exists p style,
       tasks σ !! i = Some (TApply l m p) /\
       EvAddStyle m style ∈ trace σ /\ (m, style) ∈ dom σ).
Proof.
  intros Hwf%reachable_wf σ'. subst σ'.
  destruct (tasks σ !! i) as [t|] eqn:Hi.
  2: { assert (Hq : quiet σ (step h i σ))
         by (apply step_quiet; intros *; rewrite Hi; congruence).
       split; [intros old Hin; by apply (quiet_no_remove _ _ old) in Hq|].
       intros l theme' m ? ?. left. by eapply quiet_css. }
  destruct t as [| | |l style p|l n p| | |].
  1-3, 6-8:
    assert (Hq : quiet σ (step h i σ))
      by (apply step_quiet; intros *; rewrite Hi; congruence);
    (split; [intros old Hin; by apply (quiet_no_remove _ _ old) in Hq|]);
    intros l' theme' m ? ?; left; by eapply quiet_css.
  - rewrite (step_insert _ _ _ _ _ _ Hi). st_simpl. split.
    + intros old. rewrite drop_app_length. by intros [=]%list_elem_of_singleton.
    + intros l' theme' m Hl' Hm. left. rewrite Hl'. simpl. by rewrite Hm.
  - destruct (heap σ !! l) as [theme|] eqn:Hl.
    2: { assert (Hq : quiet σ (step h i σ)).
         { unfold step. rewrite Hi. st_simpl. rewrite Hl. apply quiet_task. simpl. tauto. }
         split; [intros old Hin; by apply (quiet_no_remove _ _ old) in Hq|].
         intros l' theme' m ? ?. left. by eapply quiet_css. }
    rewrite (step_apply _ _ _ _ _ _ _ Hi Hl).
    destruct (settle_view_only h p (Resolved [l]) (applied i l n theme σ))
      as [_ Hheap Hdom _ _ _ (evs & Htr & Hevs)].
    rewrite Hheap, Hdom, Htr, applied_heap, applied_trace by done.
    destruct Hwf as [Ha _ Hc _].
    destruct (Ha _ _ _ _ Hi) as (_ & style & Hin & Hadd).
    assert (Hn : css theme <> Some n).
    { intros Hm. destruct (Hc _ _ _ Hl Hm) as (_ & _ & Hno). by eapply Hno. }
    split.
    + intros old. rewrite <- app_assoc, drop_app_length.
      intros [Hold|Hold]%elem_of_app.
      * destruct (css theme) as [old'|] eqn:Hcss; [|by apply elem_of_nil in Hold].
        apply list_elem_of_singleton in Hold as [= <-].
        destruct (Hc _ _ _ Hl Hcss) as (_ & [oldstyle Hino] & _).
        exists l, n, p, theme, style, oldstyle.
        repeat split; try done; try congruence.
        -- apply applied_dom_keeps; [done|congruence].
        -- rewrite list_lookup_insert_eq by by apply lookup_lt_Some in Hl. done.
      * rewrite Forall_forall in Hevs. by apply Hevs in Hold.
    + intros l' theme' m. destruct (decide (l = l')) as [<-|].
      * rewrite list_lookup_insert_eq by by apply lookup_lt_Some in Hl.
        intros [= <-] [= <-]. right. by exists p, style.
      * rewrite list_lookup_insert_ne by done.
        intros Hl' Hm. left. rewrite Hl'. simpl. by rewrite Hm.
Qed.

(** ** Names and selection *)

Section Names.
Implicit Types (s b e : text).

Lemma lastIndexOf_bound c s : (-1 <= lastIndexOf c s < Z.of_nat (length s))%Z.
Proof.
  induction s as [|x t IH]; simpl lastIndexOf; [simpl; lia|].
  cbn [length]. destruct (0 <=? lastIndexOf c t)%Z eqn:E; [lia|].
  destruct (Ascii.eqb x c); lia.
Qed.

Lemma lastIndexOf_app c b e :
  lastIndexOf c e = (-1)%Z ->
  lastIndexOf c (b ++ c :: e) = Z.of_nat (length b).
Proof.
  intros He. induction b as [|x b IH]; simpl.
  - rewrite He. simpl. by rewrite Ascii.eqb_refl.
  - rewrite IH. destruct (0 <=? Z.of_nat (length b))%Z eqn:E; lia.
Qed.

Lemma substring_prefix b s : substring 0 (Z.of_nat (length b)) (b ++ s) = b.
Proof.
  unfold substring. rewrite length_app.
  replace (Z.to_nat (Z.min (Z.max 0 0) _)) with 0 by lia.
  replace (Z.to_nat (Z.min (Z.max 0 (Z.of_nat (length b))) _)) with (length b) by lia.
  rewrite Nat.min_0_l, Nat.max_0_l, Nat.sub_0_r, drop_0.
  by rewrite take_app_length.
Qed.

(** The name of a theme file [b.e]: what precedes its last dot. *)
Lemma base_name b e :
  lastIndexOf "." e = (-1)%Z ->
  let fileName := b ++ "." :: e in
  substring 0 (lastIndexOf "." fileName) fileName = b.
Proof. intros He fileName. unfold fileName. by rewrite lastIndexOf_app, substring_prefix. Qed.

Lemma newTheme_className f options theme :
  falsy (Options.name options) = true ->
  falsy (Options.className options) = true ->
  newTheme f options = Ok theme ->
  className theme =
    str "theme-" ++ substring 0 (lastIndexOf "." (fname f)) (fname f).
Proof.
  intros Hn Hc. unfold newTheme.
  destruct (if falsy _ then _ else _); simpl; [|done].
  intros [= <-]. simpl.
  destruct (Options.name options) as [[|]|], (Options.className options) as [[|]|];
    done.
Qed.

(** C5, as amended.  Two themes constructed without [name] and [className]
    overrides from files named [b1.e1] and [b2.e2], where the extensions
    [e1] and [e2] hold no dot, have the same [className] exactly when
    [b1 = b2]: file names that differ before the last dot give different
    class names, file names that differ in the extension only give the
    same one. *)
Theorem className_by_base_name f1 f2 o1 o2 t1 t2 b1 e1 b2 e2 :
  fname f1 = b1 ++ "." :: e1 -> lastIndexOf "." e1 = (-1)%Z ->
  fname f2 = b2 ++ "." :: e2 -> lastIndexOf "." e2 = (-1)%Z ->
  falsy (Options.name o1) = true -> falsy (Options.className o1) = true ->
  falsy (Options.name o2) = true -> falsy (Options.className o2) = true ->
  newTheme f1 o1 = Ok t1 -> newTheme f2 o2 = Ok t2 ->
  className t1 = className t2 <-> b1 = b2.
Proof.
  intros H1 He1 H2 He2 Hn1 Hc1 Hn2 Hc2 Ht1 Ht2.
  rewrite (newTheme_className _ _ _ Hn1 Hc1 Ht1), (newTheme_className _ _ _ Hn2 Hc2 Ht2).
  rewrite H1, H2, !base_name by done.
  split; [by intros ?%app_inv_head|by intros ->].
Qed.

End Names.

Section DisplayName.

Lemma split_cons sep s : exists p ps, split sep s = p :: ps.
Proof.
  destruct s as [|c t]; simpl; [by eexists _, _|].
  destruct (Ascii.eqb c sep); [by eexists _, _|].
  destruct (split sep t); by eexists _, _.
Qed.

Lemma split_dashes s :
  ([] ∈ split "-" s -> [] ∈ split " " (dashes_to_spaces s)) /\
  ([] ∈ tail (split "-" s) -> [] ∈ tail (split " " (dashes_to_spaces s))).
Proof.
  induction s as [|c t [IHP IHQ]]; [done|].
  cbn [dashes_to_spaces map split].
  destruct (Ascii.eqb_spec c "-") as [->|Hd].
  - simpl. split; [intros _; by left|done].
  - destruct (split_cons "-" t) as (p & ps & Hp).
    destruct (split_cons " " (dashes_to_spaces t)) as (p' & ps' & Hp').
    unfold dashes_to_spaces in *. rewrite Hp, Hp' in *. simpl in IHQ.
    destruct (Ascii.eqb c " ").
    + simpl. split; [intros _; by left|].
      intros H. apply IHQ in H. by right.
    + simpl. split; [|done].
      intros [[=]|H]%elem_of_cons. right. by apply IHQ.
Qed.

Lemma mapM_capitalize_empty parts :
  [] ∈ parts ->
  mapM capitalize parts = Throw (TypeError "part[0] is undefined").
Proof.
  induction parts as [|p ps IH]; [by intros ?%elem_of_nil|].
  intros [<-|H]%elem_of_cons; [done|].
  destruct p as [|c p]; [done|]. cbn. by rewrite (IH H).
Qed.

Lemma toDisplayName_throws fileName :
  [] ∈ split "-" (substring 0 (lastIndexOf "." fileName) fileName) ->
  toDisplayName fileName = Throw (TypeError "part[0] is undefined").
Proof.
  intros H. unfold toDisplayName.
  rewrite mapM_capitalize_empty; [done|]. by apply split_dashes.
Qed.

(** C10.  [toDisplayName] throws for every file name whose base name (the
    text before the last dot) has an empty part between hyphens: two
    hyphens in a row, a hyphen at either end, or an empty base name.  The
    callback of [loadFile] for such a file that exists, with no [title]
    given, ends with that exception: nothing is registered and the deferred
    is neither resolved nor rejected. *)
Theorem display_name_not_total fileName :
  [] ∈ split "-" (substring 0 (lastIndexOf "." fileName) fileName) ->
  toDisplayName fileName = Throw (TypeError "part[0] is undefined") /\
  forall h σ i f options currentThemes d err,
    fname f = fileName ->
    falsy (Options.title options) = true ->
    tasks σ !! i = Some (TExists f options currentThemes d) ->
    exists_ h (_path f) = (err, true) ->
    let σ' := step h i σ in
    trace σ' = trace σ ++ [EvUncaught (TypeError "part[0] is undefined")] /\
    promises σ' = promises σ /\
    loadedThemes σ' = loadedThemes σ /\
    heap σ' = heap σ /\
    tasks σ' = <[i := TDone]> (tasks σ).
Proof.
  intros H. pose proof (toDisplayName_throws _ H) as Ht. split; [done|].
  intros h σ i f options currentThemes d err Hf Htitle Hi Hex σ'.
  unfold σ', step. rewrite Hi. unfold onExists. rewrite Hex.
  unfold newTheme. rewrite Htitle, Hf, Ht. done.
Qed.

End DisplayName.

Section Selection.


(** C7.  [loadDirectory] with an empty or undefined path returns a deferred
    rejected with the object [{path, error: 'Path not defined'}]; no call
    of the file system is made (the trace is unchanged) and none is left in
    flight (the tasks are unchanged). *)
Theorem loadDirectory_without_path h σ path :
  falsy path = true ->
  let d := (loadDirectory h path σ).1 in
  let σ' := (loadDirectory h path σ).2 in
  promises σ' =
    promises σ ++ [Deferred (Rejected (RPath path (Message "Path not defined")))] /\
  promises σ' !! d =
    Some (Deferred (Rejected (RPath path (Message "Path not defined")))) /\
  trace σ' = trace σ /\ tasks σ' = tasks σ /\
  loadedThemes σ' = loadedThemes σ /\ heap σ' = heap σ /\ dom σ' = dom σ.
Proof.
  intros Hp. unfold loadDirectory. rewrite Hp. simpl.
  repeat split. by rewrite lookup_app_r, Nat.sub_diag.
Qed.

End Selection.

(** ** Loading a file *)

Section LoadFile.

Context (h : Host) (σ : State) (i : nat) (f : File) (options : Options.t)
  (currentThemes : list text) (d : pid).
Hypothesis Htask : tasks σ !! i = Some (TExists f options currentThemes d).
Hypothesis Hpending : promises σ !! d = Some (Deferred Pending).

(** The existence check gives an error: the deferred is rejected with it. *)
Lemma loadFile_rejects e :
  exists_ h (_path f) = (Some e, false) ->
  promises (step h i σ) !! d = Some (Deferred (Rejected (RError e))).
Proof.
  intros Hex. unfold step. rewrite Htask. unfold onExists. rewrite Hex.
  by apply settle_lookup.
Qed.

(** Neither an error nor a file: the callback does nothing. *)
Lemma loadFile_no_answer :
  exists_ h (_path f) = (None, false) ->
  step h i σ = set_tasks <[i := TDone]> σ.
Proof.
  intros Hex. unfold step. rewrite Htask. unfold onExists. by rewrite Hex.
Qed.

(** The file exists, its theme can be constructed and is not selected: it
    is registered and the deferred is resolved with it. *)
Lemma loadFile_resolves err theme :
  exists_ h (_path f) = (err, true) ->
  newTheme f options = Ok theme ->
  name theme ∉ currentThemes ->
  loadedThemes (step h i σ) = <[name theme := length (heap σ)]> (loadedThemes σ) /\
  heap (step h i σ) = heap σ ++ [theme] /\
  promises (step h i σ) !! d = Some (Deferred (Resolved [length (heap σ)])).
Proof.
  intros Hex Hnew Hsel. unfold step. rewrite Htask. unfold onExists.
  rewrite Hex, Hnew. rewrite bool_decide_eq_false_2 by done.
  match goal with |- context [settle h d ?st ?s] =>
    destruct (settle_view_only h d st s) as [-> -> _ _ _ _ _];
    split; [done|]; split; [done|]; by apply settle_lookup
  end.
Qed.

End LoadFile.

(** ** Refresh *)

Section Refresh.

(** C8.  [refresh] with [force] false or left out reads no source and
    leaves every theme as it is: the registry, the theme objects (so
    [theme.scrollbar] and [theme.css] of every registered theme), the style
    sheets of the page and the deferreds are unchanged.  What it adds are
    calls of the view ([setDocumentMode], [updateThemes]) and the timer of
    [refreshEditor], whose callback, when it runs, refreshes the editor and
    changes no theme either. *)
Theorem light_refresh h force σ :
  force <> Some true ->
  let σ' := (refresh h force σ).1 in
  (refresh h force σ).2 = Ok () /\
  loadedThemes σ' = loadedThemes σ /\
  heap σ' = heap σ /\
  (forall name l theme,
     loadedThemes σ !! name = Some l -> heap σ !! l = Some theme ->
     loadedThemes σ' !! name = Some l /\
     scrollbar <$> heap σ' !! l = Some (scrollbar theme) /\
     css <$> heap σ' !! l = Some (css theme)) /\
  dom σ' = dom σ /\
  promises σ' = promises σ /\
  (exists ts, tasks σ' = tasks σ ++ ts /\ Forall is_timeout ts) /\
  (exists evs, trace σ' = trace σ ++ evs /\ Forall is_view_event evs) /\
  (forall h' i c,
     tasks σ' !! i = Some (TTimeout c) ->
     loadedThemes (step h' i σ') = loadedThemes σ /\
     heap (step h' i σ') = heap σ /\
     dom (step h' i σ') = dom σ /\
     trace (step h' i σ') = trace σ' ++ [EvCmRefresh c; EvResizeEditor]).
Proof.
  intros Hforce σ'.
  assert (Hr : refresh h force σ = (onRefreshed h σ, Ok ())).
  { unfold refresh. by destruct force as [[|]|]. }
  subst σ'. rewrite Hr. cbn [fst snd].
  destruct (onRefreshed_view_only h σ) as [Hreg Hheap Hdom _ _ Hts Hevs].
  assert (Hp : promises (onRefreshed h σ) = promises σ).
  { unfold onRefreshed. by destruct (activeEditor h) as [[c|]|]. }
  split; [done|]. split; [done|]. split; [done|]. split.
  { intros name l theme Hname Hl. rewrite Hreg, Hheap, Hl. by repeat split. }
  split; [done|]. split; [done|]. split; [done|]. split; [done|].
  intros h' i c Hi. unfold step. rewrite Hi. st_simpl.
  rewrite Hreg, Hheap, Hdom, <- app_assoc. by repeat split.
Qed.

End Refresh.

(** ** The session *)

Section Examples.

Import Session.

Lemma loaded_reachable : reachable loaded.
Proof. unfold loaded. apply reach_step, reach_loadFile, reach_initial. Defined.

Lemma shown_reachable : reachable shown.
Proof. unfold shown. do 4 apply reach_step. apply loaded_reachable. Defined.

Lemma inserted_reachable : reachable inserted.
Proof.
  unfold inserted, reloading. do 3 apply reach_step.
  apply reach_refresh, shown_reachable.
Defined.



(** C2 at the session: the step that releases the first sheet of the theme
    runs when the second is in the page. *)
Lemma release_after_insert_witness :
  reachable inserted /\
  exists l n p theme style oldstyle,
    tasks inserted !! 3 = Some (TApply l n p) /\
    heap inserted !! l = Some theme /\ css theme = Some 0 /\ n <> 0 /\
    EvAddStyle n style ∈ trace inserted /\
    (n, style) ∈ dom inserted /\ (0, oldstyle) ∈ dom inserted /\
    (n, style) ∈ dom (step changed 3 inserted) /\
    css <$> heap (step changed 3 inserted) !! l = Some (Some n).
Proof.
  split; [apply inserted_reachable|].
  apply (proj1 (release_after_insert inserted changed 3 inserted_reachable) 0).
  vm_compute. apply list_elem_of_In. by left.
Defined.

(** C3: the text slash, empty comment, star, star, slash.  The first pass
    removes the comment and so joins the slash to the star behind it; the
    result is an empty comment, which a second pass removes. *)
Lemma stripComments_not_idempotent :
  stripComments (str "//**/**/") = str "/**/" /\
  stripComments (stripComments (str "//**/**/")) = [] /\
  stripComments (stripComments (str "//**/**/")) <> stripComments (str "//**/**/").
Proof. by vm_compute. Qed.

Lemma stripComments_idempotent_unless_joined_witness :
  contains (str "//*") (str "a /* b */ c /* d */ e /* f") = false /\
  stripComments (stripComments (str "a /* b */ c /* d */ e /* f")) =
    stripComments (str "a /* b */ c /* d */ e /* f").
Proof.
  split; [reflexivity|].
  apply stripComments_idempotent_unless_joined. reflexivity.
Defined.



(** C5: [a.css] and [a.less] are different file names with one class
    name. *)
Lemma className_collision :
  let f1 := getFileForPath (str "/themes/a.css") in
  let f2 := getFileForPath (str "/themes/a.less") in
  fname f1 = str "a.css" /\ fname f2 = str "a.less" /\ fname f1 <> fname f2 /\
  className <$> newTheme f1 Options.none = Ok (str "theme-a") /\
  className <$> newTheme f2 Options.none = Ok (str "theme-a").
Proof. by vm_compute. Qed.

Lemma className_by_base_name_witness :
  let f1 := getFileForPath (str "/themes/monokai-dark.css") in
  let f2 := getFileForPath (str "/themes/monokai-light.css") in
  fname f1 = str "monokai-dark" ++ "." :: str "css" /\
  fname f2 = str "monokai-light" ++ "." :: str "css" /\
  className <$> newTheme f1 Options.none <> className <$> newTheme f2 Options.none.
Proof.
  intros f1 f2.
  assert (H1 : fname f1 = str "monokai-dark" ++ "." :: str "css")
    by (vm_compute; reflexivity).
  assert (H2 : fname f2 = str "monokai-light" ++ "." :: str "css")
    by (vm_compute; reflexivity).
  split; [exact H1|]. split; [exact H2|].
  destruct (newTheme f1 Options.none) as [t1|] eqn:E1; [|by vm_compute in E1].
  destruct (newTheme f2 Options.none) as [t2|] eqn:E2; [|by vm_compute in E2].
  intros [= H].
  apply (className_by_base_name f1 f2 Options.none Options.none t1 t2
           (str "monokai-dark") (str "css") (str "monokai-light") (str "css")
           H1 eq_refl H2 eq_refl eq_refl eq_refl eq_refl eq_refl E1 E2) in H.
  by vm_compute in H.
Defined.


Lemma loadDirectory_without_path_witness :
  falsy (Some []) = true /\ falsy None = true /\
  promises (loadDirectory first (Some []) shown).2 !! (loadDirectory first (Some []) shown).1 =
    Some (Deferred (Rejected (RPath (Some []) (Message "Path not defined")))) /\
  promises (loadDirectory first None shown).2 !! (loadDirectory first None shown).1 =
    Some (Deferred (Rejected (RPath None (Message "Path not defined")))) /\
  trace (loadDirectory first (Some []) shown).2 = trace shown /\
  tasks (loadDirectory first None shown).2 = tasks shown.
Proof.
  split; [reflexivity|]. split; [reflexivity|].
  destruct (loadDirectory_without_path first shown (Some []) eq_refl)
    as (_ & H1 & H2 & _).
  destruct (loadDirectory_without_path first shown None eq_refl)
    as (_ & H3 & _ & H4 & _).
  exact (conj H1 (conj H3 (conj H2 H4))).
Defined.

Lemma light_refresh_witness :
  None <> Some true /\
  heap (refresh changed None shown).1 = heap shown /\
  dom (refresh changed None shown).1 = dom shown /\
  (exists evs, trace (refresh changed None shown).1 = trace shown ++ evs /\
               Forall is_view_event evs).
Proof.
  assert (H : @None bool <> Some true) by discriminate.
  split; [exact H|].
  destruct (light_refresh changed None shown H)
    as (_ & _ & Hheap & _ & Hdom & _ & _ & Hevs & _).
  exact (conj Hheap (conj Hdom Hevs)).
Defined.

(** C9 at a file that exists and whose name has two hyphens in a row:
    the callback of the existence check throws, the deferred that
    [loadFile] returned stays pending, no theme is registered and no task is
    left that could settle it. *)
Lemma loadFile_existing_file_unsettled :
  let call := loadFile first (str "/themes/a--b.css") Options.none initial in
  let σ := step first 0 call.2 in
  exists_ first (str "/themes/a--b.css") = (None, true) /\
  call.1 = 0 /\
  promises σ = [Deferred Pending] /\
  tasks σ = [TDone] /\
  loadedThemes σ = ∅ /\
  trace σ = [EvExists (str "/themes/a--b.css");
             EvUncaught (TypeError "part[0] is undefined")].
Proof. by vm_compute. Qed.

Lemma display_name_not_total_witness :
  ([] ∈ split "-" (substring 0 (lastIndexOf "." (str "a--b.css")) (str "a--b.css"))) /\
  toDisplayName (str "a--b.css") = Throw (TypeError "part[0] is undefined") /\
  toDisplayName (str "-a.css") = Throw (TypeError "part[0] is undefined") /\
  toDisplayName (str ".css") = Throw (TypeError "part[0] is undefined").
Proof.
  assert (H : [] ∈ split "-" (substring 0 (lastIndexOf "." (str "a--b.css")) (str "a--b.css"))).
  { vm_compute. apply list_elem_of_In. right. by left. }
  split; [exact H|].
  split; [apply (display_name_not_total _ H)|].
  split; apply display_name_not_total; vm_compute; apply list_elem_of_In; by left.
Defined.

End Examples.

(** * Further properties *)

(** ** The replacements only remove *)

Section Removal.
Implicit Types (r : regex) (s t : text).

(** The scan only takes characters away, and what it takes away is what it
    collects. *)
Lemma remove_from_sublist r (j : nat) s : (remove_from r j s).1 `sublist_of` s.
Proof.
  revert j. induction s as [|c t IH]; intros j; simpl.
  - by destruct j, (exec r []).
  - destruct j as [|j]; [|by apply sublist_cons].
    destruct (exec r (c :: t)) as [[|n]|].
    + specialize (IH 0). destruct (remove_from r 0 t). by apply sublist_skip.
    + specialize (IH n). destruct (remove_from r n t). by apply sublist_cons.
    + specialize (IH 0). destruct (remove_from r 0 t). by apply sublist_skip.
Qed.

Lemma remove_from_length r (j : nat) s :
  j <= length s ->
  length (remove_from r j s).1 + length (concat (remove_from r j s).2) + j
    = length s.
Proof.
  revert j. induction s as [|c t IH]; intros j Hj; simpl in *.
  - assert (j = 0) as -> by lia. by destruct (exec r []).
  - destruct j as [|j]; [|specialize (IH j); lia].
    destruct (exec r (c :: t)) as [[|n]|] eqn:E.
    + specialize (IH 0). destruct (remove_from r 0 t). simpl in *. lia.
    + apply exec_bounded in E. simpl in E.
      specialize (IH n). destruct (remove_from r n t) as [out ms]. simpl in *.
      rewrite length_app, length_take. lia.
    + specialize (IH 0). destruct (remove_from r 0 t). simpl in *. lia.
Qed.

(** Every collected text is a match of the pattern at the place where it
    stood. *)
Lemma remove_from_matches r (j : nat) s e :
  e ∈ (remove_from r j s).2 ->
  exists s', exec r s' = Some (length e) /\ e = take (length e) s'.
Proof.
  revert j. induction s as [|c t IH]; intros j; simpl.
  - destruct j; [destruct (exec r []) as [n|] eqn:E|]; simpl;
      try by intros ?%elem_of_nil.
    intros ->%list_elem_of_singleton. exists []. split; [|done].
    apply exec_bounded in E as E'. simpl in E'. by replace n with 0 in E by lia.
  - destruct j as [|j]; [|by apply IH].
    destruct (exec r (c :: t)) as [[|n]|] eqn:E.
    + specialize (IH 0). destruct (remove_from r 0 t). simpl in *.
      intros [->|He]%elem_of_cons; [by exists (c :: t)|by apply IH].
    + apply exec_bounded in E as E'. simpl in E'.
      specialize (IH n). destruct (remove_from r n t). cbn [snd] in *.
      intros [->|He]%elem_of_cons; [|by apply IH].
      exists (c :: t). cbn [length]. by rewrite length_take, Nat.min_l by lia.
    + specialize (IH 0). destruct (remove_from r 0 t). simpl in *. by apply IH.
Qed.

End Removal.

(** ** The shape of a scrollbar rule *)

Section Shape.
Implicit Types (s t u v : text).

Lemma closing_brace_found v :
  "}" ∈ v -> is_Some (lazy_star any_char (exec [Chr "}"]) v).
Proof.
  induction v as [|c v IH]; [by intros ?%elem_of_nil|].
  intros Hin. rewrite lazy_star_unfold. simpl exec.
  destruct (Ascii.eqb_spec c "}") as [->|Hc]; [by eexists|].
  apply elem_of_cons in Hin as [|Hin]; [done|].
  simpl. by apply fmap_is_Some, IH.
Qed.

Lemma closing_brace_first v n :
  lazy_star any_char (exec [Chr "}"]) v = Some n ->
  exists d rest, v = d ++ "}" :: rest /\ ("}" ∉ d) /\ n = S (length d).
Proof.
  revert n. induction v as [|c v IH]; intros n; rewrite lazy_star_unfold; simpl exec.
  - done.
  - destruct (Ascii.eqb_spec c "}") as [->|Hc].
    + intros [= <-]. exists [], v. split; [done|]. split; [apply not_elem_of_nil|done].
    + simpl. intros (j & Hj & ->)%fmap_Some.
      destruct (IH _ Hj) as (d & rest & -> & Hd & ->).
      exists (c :: d), rest. split; [done|]. split; [|done].
      by intros [|]%elem_of_cons.
Qed.

(** An opening brace, then everything up to the first closing brace. *)
Lemma block_first u n :
  exec (Chr "{" :: Lazy any_char :: [Chr "}"]) u = Some n ->
  exists d rest, u = "{" :: d ++ "}" :: rest /\ ("}" ∉ d) /\ n = length d + 2.
Proof.
  destruct u as [|c u]; [done|]. cbn [exec].
  destruct (Ascii.eqb_spec c "{") as [->|]; [|done].
  intros (j & Hj & ->)%fmap_Some.
  destruct (closing_brace_first _ _ Hj) as (d & rest & -> & Hd & ->).
  exists d, rest. split; [done|]. split; [done|lia].
Qed.

Lemma block_found u :
  "}" ∈ u -> is_Some (exec (Chr "{" :: Lazy any_char :: [Chr "}"]) ("{" :: u)).
Proof. intros Hin. cbn [exec]. simpl Ascii.eqb. by apply fmap_is_Some, closing_brace_found. Qed.

Lemma to_block_first s n :
  lazy_star any_char (exec (Chr "{" :: Lazy any_char :: [Chr "}"])) s = Some n ->
  exists m d rest,
    s = m ++ "{" :: d ++ "}" :: rest /\ ("{" ∉ m) /\ ("}" ∉ d) /\
    n = length m + length d + 2.
Proof.
  revert n. induction s as [|c s IH]; intros n; rewrite lazy_star_unfold.
  - done.
  - destruct (exec _ (c :: s)) as [k|] eqn:E.
    + intros [= <-]. destruct (block_first _ _ E) as (d & rest & -> & Hd & ->).
      exists [], d, rest. split; [done|]. split; [apply not_elem_of_nil|done].
    + simpl. intros (j & Hj & ->)%fmap_Some.
      destruct (IH _ Hj) as (m & d & rest & -> & Hm & Hd & ->).
      exists (c :: m), d, rest. split; [done|]. split; [|split; [done|simpl; lia]].
      intros [<-|]%elem_of_cons; [|done].
      assert (Hs : is_Some (exec (Chr "{" :: Lazy any_char :: [Chr "}"])
                              ("{" :: m ++ "{" :: d ++ "}" :: rest))).
      { apply block_found. rewrite !elem_of_app, !elem_of_cons, !elem_of_app, !elem_of_cons.
        tauto. }
      rewrite E in Hs. by destruct Hs.
Qed.

(** What [scrollbarsRegex] matches: selector characters, the
    pseudo-element, a text without opening brace, and a block that ends at
    its first closing brace. *)
Lemma exec_scrollbars_shape s n :
  exec scrollbarsRegex s = Some n ->
  exists sel m d,
    take n s = sel ++ pseudo ++ m ++ "{" :: d ++ ["}"] /\
    Forall (fun c => selector_char c = true) sel /\ ("{" ∉ m) /\ ("}" ∉ d).
Proof.
  change scrollbarsRegex with
    (Greedy selector_char ::
       map Chr pseudo ++ Lazy any_char :: Chr "{" :: Lazy any_char :: [Chr "}"]).
  cbn [exec]. intros (j & Hj & Hk & Hsel)%greedy_star_inv.
  rewrite exec_lits in Hk.
  destruct (starts_with pseudo (drop j s)) eqn:Hp; [|done].
  apply fmap_Some in Hk as (k & Hk & Hn).
  apply starts_with_spec in Hp as [post Hp]. rewrite Hp in Hk.
  rewrite drop_app_length in Hk. cbn [exec] in Hk.
  destruct (to_block_first _ _ Hk) as (m & d & rest & -> & Hm & Hd & ->).
  exists (take j s), m, d. split; [|done].
  rewrite <- (take_drop j s) at 1. rewrite Hp.
  assert (Hjl : j <= length s).
  { destruct (decide (j <= length s)); [done|].
    rewrite drop_ge in Hp by lia. unfold pseudo in Hp. by cbv [str list_ascii_of_string app] in Hp. }
  rewrite take_app_ge by (rewrite length_take; lia).
  rewrite length_take, Nat.min_l by done. f_equal.
  assert (E : pseudo ++ m ++ "{" :: d ++ "}" :: rest =
              (pseudo ++ m ++ "{" :: d ++ ["}"]) ++ rest).
  { rewrite <- !app_assoc. do 2 f_equal. simpl. by rewrite <- app_assoc. }
  rewrite E. apply take_app_length'.
  rewrite Hn, !length_app. cbn [length]. rewrite length_app. cbn [length]. lia.
Qed.

Lemma exec_scrollbars_pseudo s n :
  exec scrollbarsRegex s = Some n -> contains pseudo s = true.
Proof.
  intros H. destruct (exec_scrollbars_shape _ _ H) as (sel & m & d & Ht & _).
  apply contains_spec. exists sel, (m ++ "{" :: d ++ ["}"] ++ drop n s).
  rewrite <- (take_drop n s) at 1. rewrite Ht.
  rewrite <- !app_assoc. do 3 f_equal. simpl. by rewrite <- app_assoc.
Qed.

End Shape.

(** ** What extraction returns *)

Section Transform.
Implicit Types (r : regex) (s t x : text).

Lemma remove_all_nothing r s :
  (forall j : nat, exec r (drop j s) = None) -> remove_all r s = (s, []).
Proof.
  induction s as [|c t IH]; intros H.
  - apply remove_all_nil. apply (H 0).
  - rewrite remove_all_skip by apply (H 0).
    rewrite IH; [done|]. intros j. apply (H (S j)).
Qed.

(** X1.  The two replacements of [extractScrollbars] only take characters
    out: the text without comments is a subsequence of the input, the
    returned content is a subsequence of the text without comments, and the
    characters that the second replacement takes out are the ones of the
    returned rules, so the lengths of the content and of the rules add up to
    the length of the text without comments. *)
Theorem extraction_only_removes x :
  stripComments x `sublist_of` x /\
  Ex.content (extractScrollbars x) `sublist_of` stripComments x /\
  length (Ex.content (extractScrollbars x)) +
    length (concat (Ex.scrollbar (extractScrollbars x)))
  = length (stripComments x).
Proof.
  split; [apply remove_from_sublist|].
  unfold extractScrollbars.
  pose proof (remove_from_sublist scrollbarsRegex 0 (stripComments x)) as Hs.
  pose proof (remove_from_length scrollbarsRegex 0 (stripComments x)) as Hl.
  unfold remove_all.
  destruct (remove_from scrollbarsRegex 0 (stripComments x)) as [rest found].
  simpl in *. split; [done|lia].
Qed.

(** X2.  Every entry of the list that [extractScrollbars] returns has the
    shape that the scrollbar expression asks for: characters other than a
    closing brace, a bar and a comma, then the pseudo-element, then a part
    without an opening brace, then a block in braces with no closing brace
    inside; and it stands as one piece in the text without comments. *)
Theorem extracted_rule_shape x e :
  e ∈ Ex.scrollbar (extractScrollbars x) ->
  (exists sel m d,
     e = sel ++ pseudo ++ m ++ "{" :: d ++ ["}"] /\
     Forall (fun c => selector_char c = true) sel /\ ("{" ∉ m) /\ ("}" ∉ d)) /\
  (exists before after, stripComments x = before ++ e ++ after).
Proof.
  unfold extractScrollbars, remove_all.
  destruct (remove_from scrollbarsRegex 0 (stripComments x)) as [rest found] eqn:E.
  cbn [Ex.scrollbar]. intros He.
  assert (He' : e ∈ (remove_from scrollbarsRegex 0 (stripComments x)).2)
    by by rewrite E.
  split; [|by eapply remove_from_infix].
  destruct (remove_from_matches _ _ _ _ He') as (s' & Hm & Het).
  destruct (exec_scrollbars_shape _ _ Hm) as (sel & m & d & Ht & ?).
  exists sel, m, d. split; [congruence|done].
Qed.

(** X3.  When the text without comments does not hold the pseudo-element,
    [extractScrollbars] returns that text as the content and no rule. *)
Theorem nothing_to_extract x :
  contains pseudo (stripComments x) = false ->
  extractScrollbars x = {| Ex.content := stripComments x; Ex.scrollbar := [] |}.
Proof.
  intros H. unfold extractScrollbars. rewrite remove_all_nothing; [done|].
  intros j. destruct (exec scrollbarsRegex (drop j (stripComments x))) eqn:E; [|done].
  apply exec_scrollbars_pseudo in E. by rewrite contains_drop in E.
Qed.

Lemma stripComments_no_opener s :
  contains (str "/*") s = false -> stripComments s = s.
Proof.
  induction s as [|c t IH]; [done|]. intros H.
  rewrite stripComments_skip.
  - f_equal. apply IH. by apply contains_cons in H.
  - rewrite exec_comment. cbn [contains] in H. by apply orb_false_iff in H as [-> _].
Qed.

(** X4.  A text that holds no comment opener, or no comment closer, is
    returned by the first replacement as it is: a comment that is not
    closed is not removed. *)
Theorem incomplete_comment_kept x :
  contains (str "/*") x = false \/ contains (str "*/") x = false ->
  stripComments x = x.
Proof.
  intros [H|H]; [by apply stripComments_no_opener|by apply stripComments_no_closer].
Qed.

End Transform.

(** ** Display names *)

Section DisplayNames.
Implicit Types (s p : text).









End DisplayNames.

(** ** Themes of files without extension *)

Section Construction.

Lemma substring_dotless s :
  lastIndexOf "." s = (-1)%Z -> substring 0 (lastIndexOf "." s) s = [].
Proof. intros ->. unfold substring. by rewrite !Z.max_l, !Z.min_l by lia. Qed.

(** X6.  A theme constructed from a file whose name holds no dot: without
    a title in the options the constructor throws (the base name is empty);
    with one, the name of the theme is the one of the options or else the
    empty string, and the class name is the one of the options or else the
    prefix followed by that name. *)
Theorem newTheme_dotless f options :
  lastIndexOf "." (fname f) = (-1)%Z ->
  (falsy (Options.title options) = true ->
   newTheme f options = Throw (TypeError "part[0] is undefined")) /\
  (falsy (Options.title options) = false ->
   exists theme,
     newTheme f options = Ok theme /\
     Some (displayName theme) = Options.title options /\
     name theme = or_else (Options.name options) [] /\
     className theme =
       or_else (Options.className options) (str "theme-" ++ name theme)).
Proof.
  intros Hdot. split; intros Ht; unfold newTheme; rewrite Ht.
  - rewrite toDisplayName_throws; [done|]. rewrite substring_dotless by done.
    apply list_elem_of_In. by left.
  - cbn [mbind result_bind]. eexists. split; [done|]. cbn [displayName name className].
    rewrite substring_dotless by done.
    split; [|done]. by destruct (Options.title options) as [[|]|].
Qed.

End Construction.

(** ** Calls that start operations *)

Section Starts.

Lemma starts_only_refl σ : starts_only σ σ.
Proof. split; try done; exists []; by rewrite app_nil_r. Qed.

Lemma starts_only_trans σ1 σ2 σ3 :
  starts_only σ1 σ2 -> starts_only σ2 σ3 -> starts_only σ1 σ3.
Proof.
  intros [? ? ? ? [ps Hp] [ts Ht] [evs He]] [? ? ? ? [ps' Hp'] [ts' Ht'] [evs' He']].
  split; try congruence.
  - exists (ps ++ ps'). rewrite app_assoc. congruence.
  - exists (ts ++ ts'). rewrite app_assoc. congruence.
  - exists (evs ++ evs'). rewrite app_assoc. congruence.
Qed.

Lemma starts_only_emit e σ : starts_only σ (emit e σ).
Proof. split; try done; try (exists []; by rewrite app_nil_r). by exists [e]. Qed.

Lemma starts_only_spawn t σ : starts_only σ (spawn t σ).
Proof. split; try done; try (exists []; by rewrite app_nil_r). by exists [t]. Qed.

Lemma starts_only_newPromise p σ : starts_only σ (newPromise p σ).2.
Proof. split; try done; try (exists []; by rewrite app_nil_r). by exists [p]. Qed.

Lemma starts_only_onRefreshed h σ : starts_only σ (onRefreshed h σ).
Proof.
  unfold onRefreshed, refreshEditor.
  destruct (activeEditor h) as [[c|]|]; try apply starts_only_refl.
  repeat (eapply starts_only_trans;
          [|first [apply starts_only_spawn|apply starts_only_emit]]).
  apply starts_only_refl.
Qed.

Ltac starts :=
  repeat (eapply starts_only_trans;
          [|first [apply starts_only_spawn | apply starts_only_emit]]);
  try assumption; try apply starts_only_refl.

Lemma startLoad_starts_only theme σ : starts_only σ (startLoad theme σ).1.
Proof.
  unfold startLoad. destruct (theme ≫= _) as [[l t]|]; [|apply starts_only_refl].
  unfold newPromise. cbn [fst snd]. eapply starts_only_trans.
  - apply (starts_only_newPromise (Deferred Pending)).
  - unfold newPromise. cbn [snd]. starts.
Qed.

Lemma startLoads_starts_only themes σ : starts_only σ (startLoads themes σ).1.
Proof.
  revert σ. induction themes as [|theme rest IH]; intros σ; cbn [startLoads].
  - apply starts_only_refl.
  - pose proof (startLoad_starts_only theme σ) as H.
    destruct (startLoad theme σ) as [σ1 [p|e]]; [|done].
    pose proof (IH σ1) as H'.
    destruct (startLoads rest σ1) as [σ2 [ps|e]]; by eapply starts_only_trans.
Qed.

Lemma loadCurrentThemes_starts_only h σ :
  starts_only σ (loadCurrentThemes h σ).1.
Proof.
  unfold loadCurrentThemes.
  destruct (getCurrentThemes h σ) as [themes|e]; [|apply starts_only_refl].
  pose proof (startLoads_starts_only themes σ) as H.
  destruct (startLoads themes σ) as [σ1 [ps|e]]; [|done].
  eapply starts_only_trans; [done|]. apply (starts_only_newPromise _ σ1).
Qed.

Lemma starts_only_last a p σ0 σ :
  starts_only σ0 σ ->
  length (promises σ0) <= a ->
  starts_only σ0 (set_promises <[a := p]> σ).
Proof.
  intros [? ? ? ? [ps Hp] ? ?] Ha. split; try done.
  exists (<[a - length (promises σ0) := p]> ps). cbn [promises set_promises].
  rewrite Hp. by rewrite insert_app_r_alt.
Qed.

Lemma loadCurrentThemes_fresh h σ a :
  (loadCurrentThemes h σ).2 = Ok a -> length (promises σ) <= a.
Proof.
  unfold loadCurrentThemes.
  destruct (getCurrentThemes h σ) as [themes|e]; [|done].
  pose proof (startLoads_starts_only themes σ) as [_ _ _ _ [ps Hp] _ _].
  destruct (startLoads themes σ) as [σ1 [qs|e]]; [|done].
  cbn. intros [= <-]. cbn in Hp. rewrite Hp, length_app. lia.
Qed.

Lemma refresh_starts_only h force σ : starts_only σ (refresh h force σ).1.
Proof.
  unfold refresh. destruct force as [[|]|]; try apply starts_only_onRefreshed.
  pose proof (loadCurrentThemes_starts_only h σ) as H.
  pose proof (loadCurrentThemes_fresh h σ) as Ha.
  destruct (loadCurrentThemes h σ) as [σ1 [a|e]]; [|done].
  cbn [fst snd] in *. specialize (Ha a eq_refl).
  destruct (promises σ1 !! a) as [[?|srcs [| |] ?]|]; cbn [fst]; try done.
  - by apply starts_only_last.
  - eapply starts_only_trans; [done|apply starts_only_onRefreshed].
Qed.

Lemma loadFile_starts_only h fileName options σ :
  starts_only σ (loadFile h fileName options σ).2.
Proof.
  unfold loadFile, newPromise. cbn [fst snd]. eapply starts_only_trans.
  - apply (starts_only_newPromise (Deferred Pending)).
  - unfold newPromise. cbn [snd]. starts.
Qed.

Lemma loadThemesFiles_starts_only h path files σ :
  starts_only σ (loadThemesFiles h path files σ).2.
Proof.
  revert σ. induction files as [|f rest IH]; intros σ; cbn [loadThemesFiles].
  - apply starts_only_refl.
  - pose proof (loadFile_starts_only h (path ++ str "/" ++ f) Options.none σ) as H.
    destruct (loadFile h _ Options.none σ) as [d σ1].
    pose proof (IH σ1) as H'.
    destruct (loadThemesFiles h path rest σ1) as [ds σ2]. by eapply starts_only_trans.
Qed.

Lemma loadDirectory_starts_only h path σ :
  starts_only σ (loadDirectory h path σ).2.
Proof.
  unfold loadDirectory. destruct (falsy path).
  - apply starts_only_newPromise.
  - unfold newPromise. cbn [fst snd]. eapply starts_only_trans.
    + apply (starts_only_newPromise (Deferred Pending)).
    + unfold newPromise. cbn [snd]. starts.
Qed.

End Starts.

(** ** The registry and the theme objects *)

Section Registry.

Lemma same_identity_refl t : same_identity t t.
Proof. by repeat split. Qed.

Lemma evolves_refl σ : evolves σ σ.
Proof.
  split.
  - intros l t Hl. exists t. split; [done|apply same_identity_refl].
  - done.
  - intros n l Hn. by left.
Qed.

Lemma evolves_trans σ1 σ2 σ3 : evolves σ1 σ2 -> evolves σ2 σ3 -> evolves σ1 σ3.
Proof.
  intros [Hh Hm Hr] [Hh' Hm' Hr']. split.
  - intros l t Hl. destruct (Hh _ _ Hl) as (t' & Hl' & ? & ? & ? & ?).
    destruct (Hh' _ _ Hl') as (t'' & Hl'' & ? & ? & ? & ?).
    exists t''. split; [done|]. repeat split; congruence.
  - intros n Hn. by apply Hm', Hm.
  - intros n l Hn. destruct (Hr' _ _ Hn) as [Hn'|?]; [|by right].
    destruct (Hr _ _ Hn') as [?|(t & Hl & Ht)]; [by left|right].
    destruct (Hh' _ _ Hl) as (t' & Hl' & _ & _ & Hname & _).
    exists t'. split; [done|congruence].
Qed.

(** A change that keeps the registry and the identity of every theme. *)
Lemma evolves_same σ σ' :
  loadedThemes σ' = loadedThemes σ ->
  (forall l t, heap σ !! l = Some t ->
     exists t', heap σ' !! l = Some t' /\ same_identity t t') ->
  evolves σ σ'.
Proof.
  intros Hr Hh. split; [done| |].
  - intros n. by rewrite Hr.
  - intros n l. rewrite Hr. by left.
Qed.

Lemma evolves_frame σ σ' :
  loadedThemes σ' = loadedThemes σ -> heap σ' = heap σ -> evolves σ σ'.
Proof.
  intros Hr Hh. apply evolves_same; [done|]. intros l t. rewrite Hh.
  intros ?. exists t. split; [done|apply same_identity_refl].
Qed.

Lemma starts_only_evolves σ σ' : starts_only σ σ' -> evolves σ σ'.
Proof. intros [? ? _ _ _ _ _]. by apply evolves_frame. Qed.

Lemma view_only_evolves σ σ' : view_only σ σ' -> evolves σ σ'.
Proof. intros [? ? _ _ _ _ _]. by apply evolves_frame. Qed.

Lemma evolves_alter (g : Theme -> Theme) l σ :
  (forall t, same_identity t (g t)) ->
  evolves σ (set_heap (alter g l) σ).
Proof.
  intros Hg. apply evolves_same; [done|]. intros l' t Hl'. cbn [heap set_heap].
  destruct (decide (l = l')) as [->|].
  - rewrite list_lookup_alter_eq, Hl'. by eexists.
  - rewrite list_lookup_alter_ne by done. exists t. split; [done|apply same_identity_refl].
Qed.

Lemma evolves_register theme σ :
  evolves σ (set_loadedThemes <[name theme := length (heap σ)]>
               (set_heap (fun hp => hp ++ [theme]) σ)).
Proof.
  split; cbn [heap loadedThemes set_heap set_loadedThemes].
  - intros l t Hl. exists t. split; [|apply same_identity_refl].
    by apply lookup_app_l_Some.
  - intros n Hn. destruct (decide (name theme = n)) as [->|].
    + by rewrite lookup_insert_eq.
    + by rewrite lookup_insert_ne.
  - intros n l [[<- <-]|[_ ?]]%lookup_insert_Some; [right|by left].
    exists theme. split; [|done]. by rewrite lookup_app_r, Nat.sub_diag.
Qed.


Lemma onExists_evolves h f options cur d σ :
  evolves σ (onExists h f options cur d σ).
Proof.
  unfold onExists. destruct (exists_ h (_path f)) as [err [|]].
  - destruct (newTheme f options) as [theme|e]; [|by apply evolves_frame].
    eapply evolves_trans; [apply (evolves_register theme)|].
    set (σ1 := set_loadedThemes _ _).
    destruct (bool_decide _).
    + pose proof (refresh_starts_only h (Some true) σ1) as H.
      destruct (refresh h (Some true) σ1) as [σ2 [[]|e]]; cbn [fst] in H.
      * eapply evolves_trans; [by apply starts_only_evolves|].
        apply view_only_evolves, settle_view_only.
      * eapply evolves_trans; [by apply starts_only_evolves|by apply evolves_frame].
    + apply view_only_evolves, settle_view_only.
  - destruct err; [apply view_only_evolves, settle_view_only|apply evolves_refl].
Qed.

Lemma onContents_evolves h path d σ : evolves σ (onContents h path d σ).
Proof.
  unfold onContents. destruct (getContents h path) as [[e|] entries].
  - apply view_only_evolves, settle_view_only.
  - match goal with |- context [loadThemesFiles h path ?fs σ] =>
      pose proof (loadThemesFiles_starts_only h path fs σ) as H;
      destruct (loadThemesFiles h path fs σ) as [ds σ1]
    end.
    eapply evolves_trans; [by apply starts_only_evolves|by apply evolves_frame].
Qed.

Lemma step_evolves h i σ : evolves σ (step h i σ).
Proof.
  unfold step. destruct (tasks σ !! i) as [t|]; [|apply evolves_refl].
  eapply evolves_trans; [apply (evolves_frame σ (set_tasks <[i:=TDone]> σ)); done|].
  generalize (set_tasks <[i:=TDone]> σ). clear σ. intros σ.
  destruct t.
  - apply onExists_evolves.
  - destruct (heap σ !! l) as [theme|]; [|apply evolves_refl].
    destruct (readAsText h _).
    + apply view_only_evolves, settle_view_only.
    + eapply evolves_trans; [apply evolves_alter|by apply evolves_frame].
      intros t. by repeat split.
  - destruct (heap σ !! l) as [theme|]; [|apply evolves_refl].
    destruct (lessParse h _ _).
    + eapply evolves_trans; [|apply view_only_evolves, settle_view_only].
      by apply evolves_frame.
    + by apply evolves_frame.
  - by apply evolves_frame.
  - destruct (heap σ !! l) as [theme|]; [|apply evolves_refl].
    eapply evolves_trans; [|apply view_only_evolves, settle_view_only].
    eapply evolves_trans; [|apply evolves_alter; intros t; by repeat split].
    destruct (css theme); by apply evolves_frame.
  - apply onContents_evolves.
  - by apply evolves_frame.
  - apply evolves_refl.
Qed.


End Registry.

(** ** Loading a theme *)

Section Loading.



(** X8.  When the source of a theme cannot be read, the first callback of
    the pipeline does not run: the theme objects, the style sheets and the
    registry are as before, the only events are callbacks of [refresh], and
    the deferred of the pipeline is rejected with the error of the read. *)
Theorem read_failure_changes_nothing h σ i l p theme e :
  tasks σ !! i = Some (TRead l p) ->
  heap σ !! l = Some theme ->
  readAsText h (_path (file theme)) = inl e ->
  let σ' := step h i σ in
  heap σ' = heap σ /\ dom σ' = dom σ /\ loadedThemes σ' = loadedThemes σ /\
  (exists ts, tasks σ' = <[i := TDone]> (tasks σ) ++ ts /\ Forall is_timeout ts) /\
  (exists evs, trace σ' = trace σ ++ evs /\ Forall is_view_event evs) /\
  (promises σ !! p = Some (Deferred Pending) ->
   promises σ' !! p = Some (Deferred (Rejected (RError e)))).
Proof.
  intros Hi Hl Hread σ'. subst σ'. unfold step. rewrite Hi. st_simpl.
  rewrite Hl, Hread.
  destruct (settle_view_only h p (Rejected (RError e)) (set_tasks <[i:=TDone]> σ))
    as [-> -> -> _ _ Ht He].
  repeat split; try done. intros Hp. by apply settle_lookup.
Qed.

(** X9.  The four callbacks of a pipeline whose source is read and
    compiled: the compiler gets the content without scrollbar rules, wrapped
    in a block of the class of the theme; the compiled style is inserted
    under a new node; the sheet that the theme held is removed after that;
    the theme holds the extracted rules and the new node; and the deferred
    of the pipeline is resolved with the theme. *)
Theorem pipeline_applies h σ i l p theme source style :
  tasks σ !! i = Some (TRead l p) ->
  heap σ !! l = Some theme ->
  promises σ !! p = Some (Deferred Pending) ->
  readAsText h (_path (file theme)) = inr source ->
  let result := extractScrollbars source in
  lessParse h
    (str "." ++ className theme ++ str "{" ++ Ex.content result ++ str "}")
    (_path (file theme)) = inr style ->
  let σ' := step h i (step h i (step h i (step h i σ))) in
  let n := nextNode σ in
  heap σ' =
    <[l := with_css n (with_scrollbar (Ex.scrollbar result) theme)]> (heap σ) /\
  dom σ' =
    match css theme with
    | Some old => filter (fun x => x.1 ≠ old) (dom σ ++ [(n, style)])
    | None => dom σ ++ [(n, style)]
    end /\
  nextNode σ' = S n /\
  loadedThemes σ' = loadedThemes σ /\
  promises σ' !! p = Some (Deferred (Resolved [l])) /\
  exists evs,
    trace σ' =
      trace σ ++
      [EvParse (str "." ++ className theme ++ str "{" ++ Ex.content result ++ str "}")
         (_path (file theme));
       EvAddStyle n style] ++
      match css theme with Some old => [EvRemoveStyle old] | None => [] end ++
      evs /\
    Forall is_view_event evs.
Proof.
  intros Hi Hl Hp Hread result Hparse σ' n.
  assert (Hlt : i < length (tasks σ)) by by apply lookup_lt_Some in Hi.
  assert (Hll : l < length (heap σ)) by by apply lookup_lt_Some in Hl.
  set (theme1 := with_scrollbar (Ex.scrollbar result) theme).
  (* the file is read *)
  set (σ1 := set_tasks <[i := TParse l (Ex.content result) p]>
               (set_heap (alter (with_scrollbar (Ex.scrollbar result)) l)
                  (set_tasks <[i := TDone]> σ))).
  assert (H1 : step h i σ = σ1).
  { unfold step. rewrite Hi. st_simpl. by rewrite Hl, Hread. }
  assert (Hl1 : heap σ1 !! l = Some theme1).
  { unfold σ1. st_simpl. by rewrite list_lookup_alter_eq, Hl. }
  (* the compiler answers *)
  set (src := str "." ++ className theme ++ str "{" ++ Ex.content result ++ str "}").
  set (σ2 := set_tasks <[i := TInsert l style p]>
               (emit (EvParse src (_path (file theme))) (set_tasks <[i := TDone]> σ1))).
  assert (H2 : step h i σ1 = σ2).
  { unfold step. replace (tasks σ1 !! i) with (Some (TParse l (Ex.content result) p)).
    - st_simpl. rewrite Hl1. unfold theme1. st_simpl. by rewrite Hparse.
    - unfold σ1. st_simpl. by rewrite list_lookup_insert_eq by by rewrite length_insert. }
  (* the sheet is inserted *)
  assert (H3 : tasks σ2 !! i = Some (TInsert l style p)).
  { unfold σ2, σ1. st_simpl. by rewrite list_lookup_insert_eq by by rewrite !length_insert. }
  pose proof (step_insert h i σ2 l style p H3) as H3'.
  set (σ3 := step h i σ2) in *.
  assert (Hl3 : heap σ3 !! l = Some theme1) by (rewrite H3'; exact Hl1).
  assert (Hi3 : tasks σ3 !! i = Some (TApply l n p)).
  { rewrite H3'. st_simpl. unfold σ2, σ1. st_simpl.
    by rewrite list_lookup_insert_eq by by rewrite !length_insert. }
  (* the last callback *)
  pose proof (step_apply h i σ3 l n p theme1 Hi3 Hl3) as H4.
  unfold σ'. rewrite H1, H2. fold σ3. rewrite H4.
  assert (Hp3 : promises (applied i l n theme1 σ3) !! p = Some (Deferred Pending)).
  { unfold applied. destruct (css theme1); rewrite H3'; exact Hp. }
  pose proof (settle_lookup h p (Resolved [l]) _ Hp3) as Hres.
  destruct (settle_view_only h p (Resolved [l]) (applied i l n theme1 σ3))
    as [Hr Hh Hd Hn _ _ (evs & He & Hevs)].
  split; [|split; [|split; [|split; [|split; [exact Hres|]]]]].
  - rewrite Hh, applied_heap, H3' by done. unfold σ2, σ1, theme1. st_simpl.
    apply list_eq. intros j. destruct (decide (j = l)) as [->|].
    + by rewrite !list_lookup_insert_eq by by rewrite ?length_alter.
    + rewrite !list_lookup_insert_ne, list_lookup_alter_ne by lia. done.
  - rewrite Hd, applied_dom, H3'. by unfold σ2, σ1, theme1.
  - rewrite Hn, applied_nextNode, H3'. by unfold σ2, σ1.
  - rewrite Hr. unfold applied. destruct (css theme1); by rewrite H3'.
  - exists evs. split; [|done].
    rewrite He, applied_trace, H3'. unfold σ2, σ1, theme1. st_simpl.
    by rewrite <- !app_assoc.
Qed.

End Loading.

(** ** Reloading the selection *)

Section FullReload.

Lemma when_state_pending ps srcs :
  srcs <> [] ->
  Forall (fun s => ps !! s = Some (Deferred Pending)) srcs ->
  when_state ps srcs = Pending.
Proof.
  intros Hne Hall. unfold when_state.
  assert (Hrej : omap (rejected_reason ps) srcs = []).
  { clear Hne. induction Hall as [|s srcs' Hs _ IH]; [done|]. cbn [omap list_omap].
    replace (rejected_reason ps s) with (@None Reason); [done|].
    unfold rejected_reason. by rewrite Hs. }
  rewrite Hrej. destruct Hall as [|s srcs' Hs _]; [done|].
  cbn [mapM]. replace (resolved_args ps s) with (@None (list loc)); [done|].
  unfold resolved_args. by rewrite Hs.
Qed.




Lemma pending_block ps n :
  Forall (fun s => (ps ++ replicate n (Deferred Pending)) !! s = Some (Deferred Pending))
    (seq (length ps) n).
Proof.
  apply Forall_forall. intros s Hs. apply elem_of_seq in Hs.
  rewrite lookup_app_r by lia. apply lookup_replicate_2. lia.
Qed.




End FullReload.

(** ** Directories *)

Section Directory.

Lemma lastIndexOf_split c s i :
  lastIndexOf c s = Z.of_nat i ->
  s = take i s ++ c :: drop (S i) s /\ lastIndexOf c (drop (S i) s) = (-1)%Z.
Proof.
  revert i. induction s as [|x t IH]; intros i; cbn [lastIndexOf]; [lia|].
  pose proof (lastIndexOf_bound c t) as Hb.
  destruct (0 <=? lastIndexOf c t)%Z eqn:E.
  - intros Hi. destruct i as [|i]; [lia|].
    destruct (IH i) as [Ht Hd]; [lia|].
    cbn [take drop]. split; [|exact Hd]. rewrite <- app_comm_cons. by f_equal.
  - destruct (Ascii.eqb_spec x c) as [->|]; [|lia].
    intros Hi. destruct i; [|lia]. cbn [take drop app]. rewrite drop_0.
    split; [done|]. apply Z.leb_gt in E. lia.
Qed.

Lemma substring_from_drop i s :
  i <= length s -> substring_from (Z.of_nat i) s = drop i s.
Proof.
  intros Hi. unfold substring_from, substring.
  replace (Z.to_nat (Z.min (Z.max 0 (Z.of_nat i)) _)) with i by lia.
  replace (Z.to_nat (Z.min (Z.max 0 (Z.of_nat (length s))) _)) with (length s) by lia.
  rewrite Nat.min_l, Nat.max_r by lia.
  apply take_ge. rewrite length_drop. lia.
Qed.

Lemma getFileExtension_app base ext :
  lastIndexOf "." ext = (-1)%Z ->
  getFileExtension (base ++ "." :: ext) = ext.
Proof.
  intros He. unfold getFileExtension. rewrite lastIndexOf_app by done.
  destruct (Z.eqb_spec (Z.of_nat (length base)) (-1)); [lia|].
  replace (Z.of_nat (length base) + 1)%Z with (Z.of_nat (S (length base))) by lia.
  rewrite substring_from_drop by (rewrite length_app; cbn [length]; lia).
  change ("." :: ext) with (["."] ++ ext). rewrite app_assoc.
  apply drop_app_length'. rewrite length_app. cbn [length]. lia.
Qed.

Lemma getFileExtension_inv fileName :
  getFileExtension fileName <> [] ->
  exists base, fileName = base ++ "." :: getFileExtension fileName.
Proof.
  unfold getFileExtension. pose proof (lastIndexOf_bound "." fileName) as Hb.
  destruct (Z.eqb_spec (lastIndexOf "." fileName) (-1)) as [|Hn]; [done|].
  intros _. destruct (lastIndexOf_split "." fileName (Z.to_nat (lastIndexOf "." fileName)))
    as [Hs _]; [lia|].
  exists (take (Z.to_nat (lastIndexOf "." fileName)) fileName).
  replace (lastIndexOf "." fileName + 1)%Z
    with (Z.of_nat (S (Z.to_nat (lastIndexOf "." fileName)))) by lia.
  rewrite substring_from_drop by lia. exact Hs.
Qed.

(** X13.  [isFileTypeValid] accepts exactly the entries that are files
    and whose name ends with a dot followed by css or by less, in lower
    case; the extension is what follows the last dot of the name. *)
Theorem isFileTypeValid_spec e :
  isFileTypeValid e = true <->
  isFile e = true /\
  exists base ext,
    entry_name e = base ++ "." :: ext /\ (ext = str "css" \/ ext = str "less").
Proof.
  unfold isFileTypeValid. rewrite andb_true_iff, bool_decide_eq_true.
  change (map str validExtensions) with [str "css"; str "less"].
  split; intros [Hf H]; (split; [done|]).
  - destruct (getFileExtension_inv (entry_name e)) as [base Hb].
    { intros Hnil. rewrite Hnil in H. apply elem_of_cons in H as [H|H]; [by cbv in H|].
      apply elem_of_cons in H as [H|H]; [by cbv in H|]. by apply elem_of_nil in H. }
    exists base, (getFileExtension (entry_name e)). split; [done|].
    apply elem_of_cons in H as [H|H]; [by left|].
    apply elem_of_cons in H as [H|H]; [by right|]. by apply elem_of_nil in H.
  - destruct H as (base & ext & -> & Hext).
    rewrite getFileExtension_app by (by destruct Hext as [->| ->]).
    destruct Hext as [->| ->]; [by left|]. right. by left.
Qed.

Lemma loadThemesFiles_all h path files σ :
  let k := length (promises σ) in
  let n := length files in
  exists σ',
    loadThemesFiles h path files σ = (seq k n, σ') /\
    loadedThemes σ' = loadedThemes σ /\ heap σ' = heap σ /\
    dom σ' = dom σ /\ nextNode σ' = nextNode σ /\
    promises σ' = promises σ ++ replicate n (Deferred Pending) /\
    tasks σ' = tasks σ ++ zip_with (check_of h path) files (seq k n) /\
    trace σ' = trace σ ++ ((fun f => EvExists (path ++ str "/" ++ f)) <$> files).
Proof.
  revert σ. induction files as [|f files IH]; intros σ k n.
  - exists σ. cbn. by rewrite !app_nil_r.
  - cbn [loadThemesFiles]. unfold loadFile, newPromise.
    set (σ1 := spawn _ _).
    destruct (IH σ1) as (σ' & Hs & Hr & Hh & Hd & Hn & Hp & Ht & He).
    assert (Hk : length (promises σ1) = S k).
    { unfold σ1. cbn. rewrite length_app. simpl. lia. }
    rewrite Hk in *. rewrite Hs.
    exists σ'. split; [done|]. rewrite Hr, Hh, Hd, Hn, Hp, Ht, He.
    unfold σ1. cbn. rewrite <- !app_assoc. done.
Qed.

(** X14.  The callback of a listing that succeeded: one existence check is
    started per entry that is a theme file, in the order of the entries and
    with the path of the directory before the name; the deferred that
    [loadDirectory] returned becomes the aggregate of their deferreds,
    resolved at once when there is no theme file; themes and style sheets
    are not touched. *)
Theorem listing_checks_theme_files h σ i path d entries :
  tasks σ !! i = Some (TList path d) ->
  getContents h path = (None, entries) ->
  let files := theme_files entries in
  let k := length (promises σ) in
  let n := length files in
  let σ' := step h i σ in
  loadedThemes σ' = loadedThemes σ /\ heap σ' = heap σ /\ dom σ' = dom σ /\
  promises σ' =
    <[d := WhenAll (seq k n)
             match files with [] => Resolved [] | _ => Pending end false]>
      (promises σ ++ replicate n (Deferred Pending)) /\
  tasks σ' = <[i := TDone]> (tasks σ) ++ zip_with (check_of h path) files (seq k n) /\
  trace σ' = trace σ ++ ((fun f => EvExists (path ++ str "/" ++ f)) <$> files).
Proof.
  intros Hi Hc files k n σ'. subst σ'. unfold step. rewrite Hi.
  unfold onContents. rewrite Hc. fold (theme_files entries). fold files.
  destruct (loadThemesFiles_all h path files (set_tasks <[i := TDone]> σ))
    as (σ1 & Hs & Hr & Hh & Hd & Hn & Hp & Ht & He).
  rewrite Hs. cbn [loadedThemes heap dom promises tasks trace set_promises].
  rewrite Hr, Hh, Hd, Hp, Ht, He. repeat split; try done.
  cbn [promises set_tasks]. fold k n. f_equal. f_equal.
  destruct files as [|f files']; [done|].
  apply when_state_pending; [done|]. apply pending_block.
Qed.

(** X15.  The callback of a listing that failed: the deferred that
    [loadDirectory] returned is rejected with the path and the error, and no
    existence check is started, whatever entries came with the error. *)
Theorem listing_failure_rejects h σ i path d e entries :
  tasks σ !! i = Some (TList path d) ->
  getContents h path = (Some e, entries) ->
  let σ' := step h i σ in
  loadedThemes σ' = loadedThemes σ /\ heap σ' = heap σ /\ dom σ' = dom σ /\
  (exists ts, tasks σ' = <[i := TDone]> (tasks σ) ++ ts /\ Forall is_timeout ts) /\
  (exists evs, trace σ' = trace σ ++ evs /\ Forall is_view_event evs) /\
  (promises σ !! d = Some (Deferred Pending) ->
   promises σ' !! d = Some (Deferred (Rejected (RPath (Some path) e)))).
Proof.
  intros Hi Hc σ'. subst σ'. unfold step. rewrite Hi.
  unfold onContents. rewrite Hc.
  destruct (settle_view_only h d (Rejected (RPath (Some path) e))
              (set_tasks <[i:=TDone]> σ)) as [-> -> -> _ _ Ht He].
  repeat split; try done. intros Hp. by apply settle_lookup.
Qed.

End Directory.

(** ** What persists *)

Section Persistence.

(** X16.  Whatever the module does between two states, no theme object is
    lost, none changes its file, display name, name or class name, no name
    leaves the registry, and an entry that the registry gains is a theme
    object under its own name. *)
Theorem themes_persist σ σ' : later σ σ' -> evolves σ σ'.
Proof.
  induction 1 as [|h i σ' _ IH|h force σ' _ IH|h fileName options σ' _ IH
                  |h pkg σ' _ IH|h path σ' _ IH].
  - apply evolves_refl.
  - eapply evolves_trans; [exact IH|apply step_evolves].
  - eapply evolves_trans; [exact IH|]. apply starts_only_evolves, refresh_starts_only.
  - eapply evolves_trans; [exact IH|]. apply starts_only_evolves, loadFile_starts_only.
  - eapply evolves_trans; [exact IH|]. apply starts_only_evolves, loadFile_starts_only.
  - eapply evolves_trans; [exact IH|]. apply starts_only_evolves, loadDirectory_starts_only.
Qed.

(** X17.  The calls of [refresh], [loadFile], [loadPackage] and
    [loadDirectory] themselves leave the registry, the theme objects and the
    style sheets as they are: they add deferreds, pending operations and
    events behind the ones there are. *)
Theorem exported_calls_only_start h σ :
  (forall force, starts_only σ (refresh h force σ).1) /\
  (forall fileName options, starts_only σ (loadFile h fileName options σ).2) /\
  (forall pkg, starts_only σ (loadPackage h pkg σ).2) /\
  (forall path, starts_only σ (loadDirectory h path σ).2).
Proof.
  split; [|split; [|split]].
  - intros force. apply refresh_starts_only.
  - intros fileName options. apply loadFile_starts_only.
  - intros pkg. apply loadFile_starts_only.
  - intros path. apply loadDirectory_starts_only.
Qed.

End Persistence.

(** ** Packages *)

Section Packages.



End Packages.

(** ** Aggregates *)

Section Aggregates.

Lemma omap_ext_Forall {A B} (f g : A -> option B) l :
  Forall (fun x => f x = g x) l -> omap f l = omap g l.
Proof. induction 1 as [|x l Hx _ IH]; [done|]. cbn [omap list_omap]. by rewrite Hx, IH. Qed.

Lemma mapM_ext_Forall {A B} (f g : A -> option B) l :
  Forall (fun x => f x = g x) l -> mapM f l = mapM g l.
Proof. induction 1 as [|x l Hx _ IH]; [done|]. cbn [mapM]. by rewrite Hx, IH. Qed.

Lemma when_state_ext ps ps' srcs :
  Forall (fun s => ps !! s = ps' !! s) srcs ->
  when_state ps srcs = when_state ps' srcs.
Proof.
  intros H. unfold when_state.
  rewrite (omap_ext_Forall (rejected_reason ps) (rejected_reason ps') srcs).
  - rewrite (mapM_ext_Forall (resolved_args ps) (resolved_args ps') srcs); [done|].
    eapply Forall_impl; [exact H|]. intros s Hs. unfold resolved_args. by rewrite Hs.
  - eapply Forall_impl; [exact H|]. intros s Hs. unfold rejected_reason. by rewrite Hs.
Qed.

Lemma when_state_resolved ps srcs :
  Forall (fun s => exists args, ps !! s = Some (Deferred (Resolved args))) srcs ->
  exists args, when_state ps srcs = Resolved args.
Proof.
  intros H. unfold when_state.
  assert (Hrej : omap (rejected_reason ps) srcs = []).
  { induction H as [|s srcs' [args Hs] _ IH]; [done|]. cbn [omap list_omap].
    replace (rejected_reason ps s) with (@None Reason); [done|].
    unfold rejected_reason. by rewrite Hs. }
  rewrite Hrej.
  assert (Hres : is_Some (mapM (resolved_args ps) srcs)).
  { clear Hrej. induction H as [|s srcs' [args Hs] _ IH]; [by eexists|]. cbn [mapM].
    replace (resolved_args ps s) with (Some args) by (unfold resolved_args; by rewrite Hs).
    destruct IH as [rest ->]. by eexists. }
  destruct Hres as [args ->]. by eexists.
Qed.

Lemma when_state_rejected ps srcs p r :
  p ∈ srcs ->
  ps !! p = Some (Deferred (Rejected r)) ->
  Forall (fun s => s = p \/
            exists st, ps !! s = Some (Deferred st) /\ forall r', st <> Rejected r')
         srcs ->
  when_state ps srcs = Rejected r.
Proof.
  intros Hin Hp H. unfold when_state.
  assert (Hrej : exists rest, omap (rejected_reason ps) srcs = r :: rest).
  { induction H as [|s srcs' Hs _ IH]; [by apply elem_of_nil in Hin|].
    cbn [omap list_omap]. destruct Hs as [->|(st & Hs & Hst)].
    - replace (rejected_reason ps p) with (Some r)
        by (unfold rejected_reason; by rewrite Hp).
      by eexists.
    - replace (rejected_reason ps s) with (@None Reason).
      + apply IH. apply elem_of_cons in Hin as [->|]; [|done].
        rewrite Hp in Hs. injection Hs as <-. by destruct (Hst r).
      + unfold rejected_reason. rewrite Hs. cbn. destruct st; try done.
        by destruct (Hst r0). }
  destruct Hrej as [rest ->]. done.
Qed.

Lemma update_when_other h σ q a :
  q <> a -> promises (update_when h σ q) !! a = promises σ !! a.
Proof.
  intros Hne. unfold update_when.
  destruct (promises σ !! q) as [[?|srcs [| |] onDone]|]; try done.
  destruct (when_state _ _); try done.
  - assert (Hp : promises (set_promises <[q:=WhenAll srcs (Resolved args) false]> σ) !! a
                 = promises σ !! a).
    { cbn [promises set_promises]. by rewrite list_lookup_insert_ne. }
    destruct onDone; [|done].
    unfold onRefreshed. by destruct (activeEditor h) as [[c|]|].
  - cbn [promises set_promises]. by rewrite list_lookup_insert_ne.
Qed.

Lemma updates_view_only h qs σ : view_only σ (foldl (update_when h) σ qs).
Proof.
  revert σ. induction qs as [|q qs IH]; intros σ; cbn [foldl].
  - apply view_only_refl.
  - eapply view_only_trans; [apply update_when_view_only|apply IH].
Qed.

Lemma updates_other h qs σ a :
  a ∉ qs -> promises (foldl (update_when h) σ qs) !! a = promises σ !! a.
Proof.
  revert σ. induction qs as [|q qs IH]; intros σ Ha; cbn [foldl]; [done|].
  apply not_elem_of_cons in Ha as [? ?]. rewrite IH by done.
  by apply update_when_other.
Qed.

Lemma updates_deferred h qs σ d st :
  promises σ !! d = Some (Deferred st) ->
  promises (foldl (update_when h) σ qs) !! d = Some (Deferred st).
Proof.
  revert σ. induction qs as [|q qs IH]; intros σ Hd; cbn [foldl]; [done|].
  by apply IH, update_when_deferred.
Qed.

(** What [settle] does to a pending aggregate whose sources are deferreds
    of the module: the aggregates before it look at their sources, then it
    does, then the ones after it. *)
Lemma settle_aggregate h d st σ a srcs b :
  promises σ !! d = Some (Deferred Pending) ->
  promises σ !! a = Some (WhenAll srcs Pending b) ->
  Forall (fun s => exists st', promises σ !! s = Some (Deferred st')) srcs ->
  exists σ1,
    view_only σ σ1 /\
    promises σ1 !! a = Some (WhenAll srcs Pending b) /\
    when_state (promises σ1) srcs =
      when_state (<[d := Deferred st]> (promises σ)) srcs /\
    view_only (update_when h σ1 a) (settle h d st σ) /\
    promises (settle h d st σ) !! a = promises (update_when h σ1 a) !! a.
Proof.
  intros Hd Ha Hsrcs. unfold settle. rewrite Hd.
  set (σ0 := set_promises <[d := Deferred st]> σ).
  assert (Hlt : a < length (promises σ0)).
  { unfold σ0. cbn [promises set_promises]. rewrite length_insert.
    by apply lookup_lt_Some in Ha. }
  assert (Hne : d <> a) by (intros ->; congruence).
  replace (length (promises σ0))
    with (a + S (length (promises σ0) - S a)) by lia.
  rewrite seq_app, foldl_app. cbn [seq foldl Nat.add].
  exists (foldl (update_when h) σ0 (seq 0 a)).
  assert (Ha0 : promises σ0 !! a = Some (WhenAll srcs Pending b)).
  { unfold σ0. cbn [promises set_promises]. by rewrite list_lookup_insert_ne. }
  split; [|split; [|split; [|split]]].
  - eapply view_only_trans; [|apply updates_view_only].
    apply view_only_set_promises. intros. apply length_insert.
  - rewrite updates_other; [done|]. intros Hin%elem_of_seq. lia.
  - apply when_state_ext. eapply Forall_impl; [exact Hsrcs|].
    intros s [st' Hs]. cbn beta.
    assert (exists st'', promises σ0 !! s = Some (Deferred st'')) as [st'' Hs0].
    { unfold σ0. cbn [promises set_promises]. destruct (decide (s = d)) as [->|].
      - exists st. apply list_lookup_insert_eq. by apply lookup_lt_Some in Hd.
      - exists st'. by rewrite list_lookup_insert_ne. }
    rewrite (updates_deferred h _ σ0 s st'' Hs0). by rewrite <- Hs0.
  - apply updates_view_only.
  - apply updates_other. intros Hin%elem_of_seq. lia.
Qed.

Lemma applied_promises i l n theme σ :
  promises (applied i l n theme σ) = promises σ.
Proof. unfold applied. by destruct (css theme). Qed.

(** X19.  The last callback of a pipeline, when the other deferreds of the
    aggregate of its reload are resolved: the aggregate becomes resolved
    with the themes of all, its callback runs (the document mode is set,
    the themes are updated and the editor refresh is scheduled for the
    active editor), and it cannot run again. *)
Theorem last_pipeline_updates_views h σ i l n p theme a srcs c :
  tasks σ !! i = Some (TApply l n p) ->
  heap σ !! l = Some theme ->
  promises σ !! p = Some (Deferred Pending) ->
  promises σ !! a = Some (WhenAll srcs Pending true) ->
  Forall (fun s => s = p \/
            exists args, promises σ !! s = Some (Deferred (Resolved args))) srcs ->
  activeEditor h = Some (Some c) ->
  let σ' := step h i σ in
  (exists args,
     when_state (<[p := Deferred (Resolved [l])]> (promises σ)) srcs = Resolved args /\
     promises σ' !! a = Some (WhenAll srcs (Resolved args) false)) /\
  (exists evs1 evs2, trace σ' = trace σ ++ evs1 ++ view_events c ++ evs2) /\
  (exists ts1 ts2, tasks σ' = <[i := TDone]> (tasks σ) ++ ts1 ++ [TTimeout c] ++ ts2).
Proof.
  intros Hi Hl Hp Ha Hsrcs Hc σ'. subst σ'.
  rewrite (step_apply h i σ l n p theme Hi Hl).
  set (σA := applied i l n theme σ).
  assert (HpA : promises σA = promises σ) by apply applied_promises.
  destruct (settle_aggregate h p (Resolved [l]) σA a srcs true) as
    (σ1 & Hv1 & Ha1 & Hw & Hv2 & Ha2).
  { by rewrite HpA. }
  { by rewrite HpA. }
  { rewrite HpA. eapply Forall_impl; [exact Hsrcs|].
    intros s [->|[args Hs]]; by eexists. }
  rewrite HpA in Hw.
  destruct (when_state_resolved (<[p := Deferred (Resolved [l])]> (promises σ)) srcs)
    as [args Hargs].
  { eapply Forall_impl; [exact Hsrcs|]. intros s [->|[args Hs]].
    - exists [l]. apply list_lookup_insert_eq. by apply lookup_lt_Some in Hp.
    - exists args. rewrite list_lookup_insert_ne; [done|]. intros ->. congruence. }
  rewrite Hargs in Hw.
  assert (H2 : update_when h σ1 a =
               refreshEditor c (emit (EvUpdateThemes c) (emit (EvSetDocumentMode c)
                 (set_promises <[a := WhenAll srcs (Resolved args) false]> σ1)))).
  { unfold update_when. rewrite Ha1, Hw. unfold onRefreshed. by rewrite Hc. }
  rewrite H2 in Hv2, Ha2.
  destruct Hv1 as [_ _ _ _ _ (ts1 & Ht1 & _) (evs1 & He1 & _)].
  destruct Hv2 as [_ _ _ _ _ (ts2 & Ht2 & _) (evs2 & He2 & _)].
  split; [|split].
  - exists args. split; [done|]. rewrite Ha2. unfold refreshEditor.
    cbn [promises set_promises set_tasks set_trace emit spawn].
    apply list_lookup_insert_eq. by apply lookup_lt_Some in Ha1.
  - exists (match css theme with Some old => [EvRemoveStyle old] | None => [] end ++ evs1),
      evs2.
    rewrite He2. unfold refreshEditor.
    cbn [trace set_promises set_tasks set_trace emit spawn].
    rewrite He1. unfold σA. rewrite applied_trace. unfold view_events.
    by rewrite <- !app_assoc.
  - exists ts1, ts2. rewrite Ht2. unfold refreshEditor.
    cbn [tasks set_promises set_tasks set_trace emit spawn].
    rewrite Ht1. unfold σA. rewrite applied_tasks. by rewrite <- !app_assoc.
Qed.

End Aggregates.

(** ** Deferreds and their callbacks *)

Section Ownership.

Lemma is_timeout_target t : is_timeout t -> target t = None.
Proof. by destruct t. Qed.

Lemma owned_eq σ σ' :
  promises σ' = promises σ -> tasks σ' = tasks σ -> owned σ -> owned σ'.
Proof.
  intros Hp Ht [H1 H2]. split.
  - intros i t d. rewrite Ht, Hp. apply H1.
  - intros i j t t' d. rewrite Ht. apply H2.
Qed.

Lemma free_eq d σ σ' : tasks σ' = tasks σ -> free d σ -> free d σ'.
Proof. intros Ht H j t. rewrite Ht. apply H. Qed.

Lemma owned_initial : owned initial.
Proof.
  split; unfold initial; cbn [tasks]; intros i; intros; by rewrite lookup_nil in *.
Qed.

(** *** Starting operations *)

Lemma begins_refl σ : begins σ σ.
Proof.
  split.
  - done.
  - done.
  - intros. by left.
  - intros i j t t' d Hi _ _ _ Hni. done.
Qed.

Lemma begins_length σ σ' :
  begins σ σ' -> length (promises σ) <= length (promises σ').
Proof.
  intros [Hp _ _ _]. destruct (promises σ) as [|q ps] eqn:E using rev_ind; [cbn; lia|].
  clear IHps. specialize (Hp (length ps) q).
  rewrite lookup_app_r, Nat.sub_diag in Hp by lia.
  apply lookup_lt_Some in Hp; [|done]. rewrite length_app. cbn. lia.
Qed.

Lemma begins_trans σ1 σ2 σ3 : begins σ1 σ2 -> begins σ2 σ3 -> begins σ1 σ3.
Proof.
  intros H12 H23. pose proof (begins_length _ _ H12) as Hlen.
  destruct H12 as [Hp Ht Hn Hd], H23 as [Hp' Ht' Hn' Hd']. split.
  - intros d q Hq. by apply Hp', Hp.
  - intros i t Hi. by apply Ht', Ht.
  - intros i t d Hi Htg. destruct (Hn' _ _ _ Hi Htg) as [Hi2|[Hle Hpen]].
    + destruct (Hn _ _ _ Hi2 Htg) as [?|[Hle Hpen]]; [by left|right].
      split; [done|]. by apply Hp'.
    + right. split; [lia|done].
  - intros i j t t' d Hi Hj Htg Htg' Hni Hnj.
    assert (Hcase : forall k u, tasks σ3 !! k = Some u -> target u = Some d ->
              tasks σ1 !! k <> Some u ->
              (tasks σ2 !! k = Some u /\ d < length (promises σ2)) \/
              (tasks σ2 !! k <> Some u /\ length (promises σ2) <= d)).
    { intros k u Hk Hu Hnk. destruct (Hn' _ _ _ Hk Hu) as [Hk2|[Hle _]].
      - left. split; [done|]. destruct (Hn _ _ _ Hk2 Hu) as [?|[_ Hpen]]; [done|].
        by apply lookup_lt_Some in Hpen.
      - right. split; [|done]. intros Hk2.
        destruct (Hn _ _ _ Hk2 Hu) as [?|[_ Hpen]]; [done|].
        apply lookup_lt_Some in Hpen. lia. }
    destruct (Hcase _ _ Hi Htg Hni) as [[Hi2 ?]|[Hi2 ?]],
             (Hcase _ _ Hj Htg' Hnj) as [[Hj2 ?]|[Hj2 ?]]; try lia.
    + by eapply Hd.
    + by eapply Hd'.
Qed.

Lemma begins_same σ σ' :
  promises σ' = promises σ -> tasks σ' = tasks σ -> begins σ σ'.
Proof.
  intros Hp Ht. split.
  - intros d q. by rewrite Hp.
  - intros i t. by rewrite Ht.
  - intros i t d. rewrite Ht. by left.
  - intros i j t t' d. rewrite Ht. done.
Qed.

Lemma begins_promise q σ σ' :
  promises σ' = promises σ ++ [q] -> tasks σ' = tasks σ -> begins σ σ'.
Proof.
  intros Hp Ht. split.
  - intros d q' Hd. rewrite Hp. by apply lookup_app_l_Some.
  - intros i t. by rewrite Ht.
  - intros i t d. rewrite Ht. by left.
  - intros i j t t' d. rewrite Ht. done.
Qed.

Lemma begins_untargeted t σ σ' :
  promises σ' = promises σ -> tasks σ' = tasks σ ++ [t] -> target t = None ->
  begins σ σ'.
Proof.
  intros Hp Ht Htg. split.
  - intros d q. by rewrite Hp.
  - intros i u Hi. rewrite Ht. by apply lookup_app_l_Some.
  - intros i u d. rewrite Ht. intros [?|[_ Hu]]%lookup_app_Some; [by left|].
    apply list_lookup_singleton_Some in Hu as [_ <-]. congruence.
  - intros i j u u' d. rewrite Ht.
    intros [?|[_ Hu]]%lookup_app_Some; [done|].
    apply list_lookup_singleton_Some in Hu as [_ <-]. congruence.
Qed.

Lemma begins_start t σ σ' :
  promises σ' = promises σ ++ [Deferred Pending] ->
  tasks σ' = tasks σ ++ [t] ->
  target t = Some (length (promises σ)) ->
  begins σ σ'.
Proof.
  intros Hp Ht Htg. split.
  - intros d q' Hd. rewrite Hp. by apply lookup_app_l_Some.
  - intros i u Hi. rewrite Ht. by apply lookup_app_l_Some.
  - intros i u d. rewrite Ht. intros [?|[_ Hu]]%lookup_app_Some; [by left|].
    apply list_lookup_singleton_Some in Hu as [_ <-]. rewrite Htg. intros [= <-].
    right. split; [done|]. rewrite Hp. by rewrite lookup_app_r, Nat.sub_diag.
  - intros i j u u' d. rewrite Ht.
    intros [?|[Hi Hu]]%lookup_app_Some; [done|].
    intros [?|[Hj Hu']]%lookup_app_Some; [done|].
    apply list_lookup_singleton_Some in Hu as [Hi' _].
    apply list_lookup_singleton_Some in Hu' as [Hj' _]. lia.
Qed.

(** An aggregate that is new is given another state. *)
Lemma begins_update σ0 σ a srcs st b q :
  begins σ0 σ ->
  length (promises σ0) <= a ->
  promises σ !! a = Some (WhenAll srcs st b) ->
  begins σ0 (set_promises <[a := q]> σ).
Proof.
  intros [Hp Ht Hn Hd] Hle Ha. split; cbn [promises tasks set_promises].
  - intros d q' Hq. rewrite list_lookup_insert_ne; [by apply Hp|].
    apply lookup_lt_Some in Hq. lia.
  - exact Ht.
  - intros i t d Hi Htg. destruct (Hn _ _ _ Hi Htg) as [?|[? Hpen]]; [by left|right].
    split; [done|]. rewrite list_lookup_insert_ne; [done|]. intros ->. congruence.
  - exact Hd.
Qed.

Lemma owned_begins σ σ' : owned σ -> begins σ σ' -> owned σ'.
Proof.
  intros [Ho1 Ho2] [Hp Ht Hn Hd]. split.
  - intros i t d Hi Htg. destruct (Hn _ _ _ Hi Htg) as [Hi0|[_ ?]]; [|done].
    by eapply Hp, Ho1.
  - intros i j t t' d Hi Hj Htg Htg'.
    assert (Hcase : forall k u, tasks σ' !! k = Some u -> target u = Some d ->
              (tasks σ !! k = Some u /\ d < length (promises σ)) \/
              (tasks σ !! k <> Some u /\ length (promises σ) <= d)).
    { intros k u Hk Hu. destruct (Hn _ _ _ Hk Hu) as [Hk0|[Hle _]].
      - left. split; [done|]. eapply lookup_lt_Some, Ho1; done.
      - right. split; [|done]. intros Hk0.
        pose proof (Ho1 _ _ _ Hk0 Hu) as Hpen. apply lookup_lt_Some in Hpen. lia. }
    destruct (Hcase _ _ Hi Htg) as [[Hi0 ?]|[Hi0 ?]],
             (Hcase _ _ Hj Htg') as [[Hj0 ?]|[Hj0 ?]]; try lia.
    + by eapply Ho2.
    + by eapply Hd.
Qed.

Lemma free_begins d σ σ' :
  free d σ -> begins σ σ' -> d < length (promises σ) -> free d σ'.
Proof.
  intros Hf [_ _ Hn _] Hlt j t Hj Htg.
  destruct (Hn _ _ _ Hj Htg) as [Hj0|[? _]]; [|lia]. by eapply Hf.
Qed.

Lemma begins_keeps σ σ' : begins σ σ' -> keeps_settled σ σ'.
Proof. intros [Hp _ _ _] d q Hd _. by apply Hp. Qed.

Lemma begins_onRefreshed h σ : begins σ (onRefreshed h σ).
Proof.
  unfold onRefreshed, refreshEditor.
  destruct (activeEditor h) as [[c|]|]; try apply begins_refl.
  by apply (begins_untargeted (TTimeout c)).
Qed.

Lemma startLoad_begins theme σ : begins σ (startLoad theme σ).1.
Proof.
  unfold startLoad. destruct (theme ≫= _) as [[l t]|]; [|apply begins_refl].
  unfold newPromise. cbn [fst snd]. by apply (begins_start (TRead l (length (promises σ)))).
Qed.

Lemma startLoads_begins themes σ : begins σ (startLoads themes σ).1.
Proof.
  revert σ. induction themes as [|theme rest IH]; intros σ; cbn [startLoads].
  - apply begins_refl.
  - pose proof (startLoad_begins theme σ) as H.
    destruct (startLoad theme σ) as [σ1 [p|e]]; [|done].
    pose proof (IH σ1) as H'.
    destruct (startLoads rest σ1) as [σ2 [ps|e]]; by eapply begins_trans.
Qed.

Lemma loadCurrentThemes_begins h σ : begins σ (loadCurrentThemes h σ).1.
Proof.
  unfold loadCurrentThemes.
  destruct (getCurrentThemes h σ) as [themes|e]; [|apply begins_refl].
  pose proof (startLoads_begins themes σ) as H.
  destruct (startLoads themes σ) as [σ1 [ps|e]]; [|done].
  eapply begins_trans; [done|]. unfold newPromise. cbn [fst snd].
  by eapply begins_promise.
Qed.

Lemma refresh_begins h force σ : begins σ (refresh h force σ).1.
Proof.
  unfold refresh. destruct force as [[|]|]; try apply begins_onRefreshed.
  pose proof (loadCurrentThemes_begins h σ) as H.
  pose proof (loadCurrentThemes_fresh h σ) as Ha.
  destruct (loadCurrentThemes h σ) as [σ1 [a|e]]; [|done].
  cbn [fst snd] in *. specialize (Ha a eq_refl).
  destruct (promises σ1 !! a) as [[?|srcs [| |] ?]|] eqn:E; cbn [fst]; try done.
  - by eapply begins_update.
  - eapply begins_trans; [done|apply begins_onRefreshed].
Qed.

Lemma loadFile_begins h fileName options σ :
  begins σ (loadFile h fileName options σ).2.
Proof.
  unfold loadFile, newPromise. cbn [fst snd].
  by eapply (begins_start (TExists _ _ _ (length (promises σ)))).
Qed.

Lemma loadThemesFiles_begins h path files σ :
  begins σ (loadThemesFiles h path files σ).2.
Proof.
  revert σ. induction files as [|f rest IH]; intros σ; cbn [loadThemesFiles].
  - apply begins_refl.
  - pose proof (loadFile_begins h (path ++ str "/" ++ f) Options.none σ) as H.
    destruct (loadFile h _ Options.none σ) as [d σ1].
    pose proof (IH σ1) as H'.
    destruct (loadThemesFiles h path rest σ1) as [ds σ2]. by eapply begins_trans.
Qed.

Lemma loadDirectory_begins h path σ : begins σ (loadDirectory h path σ).2.
Proof.
  unfold loadDirectory. destruct (falsy path).
  - unfold newPromise. cbn [snd]. by eapply begins_promise.
  - unfold newPromise. cbn [fst snd].
    by eapply (begins_start (TList _ (length (promises σ)))).
Qed.

(** *** Settling *)

Lemma keeps_settled_refl σ : keeps_settled σ σ.
Proof. by intros d q. Qed.

Lemma keeps_settled_trans σ1 σ2 σ3 :
  keeps_settled σ1 σ2 -> keeps_settled σ2 σ3 -> keeps_settled σ1 σ3.
Proof. intros H12 H23 d q Hd Hq. apply H23; [|done]. by apply H12. Qed.

Lemma keeps_settled_eq σ σ' : promises σ' = promises σ -> keeps_settled σ σ'.
Proof. intros Hp d q. by rewrite Hp. Qed.

(** A pending deferred or aggregate is given another state. *)
Lemma keeps_settled_insert σ d q q' :
  promises σ !! d = Some q -> pstate q = Pending ->
  keeps_settled σ (set_promises <[d := q']> σ).
Proof.
  intros Hd Hq d' p Hd' Hp. cbn [promises set_promises].
  rewrite list_lookup_insert_ne; [done|]. intros ->. congruence.
Qed.

Lemma update_when_keeps h σ q : keeps_settled σ (update_when h σ q).
Proof.
  unfold update_when.
  destruct (promises σ !! q) as [[?|srcs [| |] onDone]|] eqn:Hq;
    try apply keeps_settled_refl.
  destruct (when_state _ _); try apply keeps_settled_refl.
  - destruct onDone.
    + eapply keeps_settled_trans; [|apply begins_keeps, begins_onRefreshed].
      by eapply keeps_settled_insert.
    + by eapply keeps_settled_insert.
  - by eapply keeps_settled_insert.
Qed.

Lemma settle_keeps h d st σ : keeps_settled σ (settle h d st σ).
Proof.
  unfold settle.
  destruct (promises σ !! d) as [[[| |]|]|] eqn:Hd; try apply keeps_settled_refl.
  apply (keeps_settled_trans _ (set_promises <[d:=Deferred st]> σ));
    [by eapply keeps_settled_insert|].
  generalize (seq 0 (length (promises (set_promises <[d:=Deferred st]> σ)))).
  generalize (set_promises <[d:=Deferred st]> σ).
  intros σ' qs. revert σ'. induction qs as [|q qs IH]; intros σ'; cbn [foldl].
  - apply keeps_settled_refl.
  - eapply keeps_settled_trans; [apply update_when_keeps|apply IH].
Qed.

Lemma settle_other h d st σ d' st' :
  d' <> d ->
  promises σ !! d' = Some (Deferred st') ->
  promises (settle h d st σ) !! d' = Some (Deferred st').
Proof.
  intros Hne Hd'. unfold settle.
  destruct (promises σ !! d) as [[[| |]|]|]; try done.
  apply updates_deferred. cbn [promises set_promises].
  by rewrite list_lookup_insert_ne.
Qed.

Lemma owned_settle h d st σ : owned σ -> free d σ -> owned (settle h d st σ).
Proof.
  intros [Ho1 Ho2] Hf.
  destruct (settle_view_only h d st σ) as [_ _ _ _ _ (ts & Ht & Hts) _].
  assert (Hold : forall i t d', tasks (settle h d st σ) !! i = Some t ->
            target t = Some d' -> tasks σ !! i = Some t).
  { intros i t d'. rewrite Ht. intros [?|[_ Hi]]%lookup_app_Some; [done|].
    intros Htg. eapply Forall_lookup_1 in Hts; [|done].
    apply is_timeout_target in Hts. congruence. }
  split.
  - intros i t d' Hi Htg. pose proof (Hold _ _ _ Hi Htg) as Hi0.
    apply settle_other; [|by eapply Ho1]. intros ->. by eapply Hf.
  - intros i j t t' d' Hi Hj Htg Htg'. eapply Ho2; [by eapply Hold|by eapply Hold|done..].
Qed.

Lemma owned_overwrite d q σ : owned σ -> free d σ -> owned (set_promises <[d := q]> σ).
Proof.
  intros [Ho1 Ho2] Hf. split; cbn [promises tasks set_promises]; [|done].
  intros i t d' Hi Htg. rewrite list_lookup_insert_ne; [by eapply Ho1|].
  intros ->. by eapply Hf.
Qed.

(** *** Steps *)

Lemma owned_done i σ : owned σ -> owned (set_tasks <[i := TDone]> σ).
Proof.
  intros [Ho1 Ho2]. split; cbn [promises tasks set_tasks].
  - intros j t d [[-> [<- _]]|[_ Hj]]%list_lookup_insert_Some; [done|]. by eapply Ho1.
  - intros j k t t' d [[-> [<- _]]|[_ Hj]]%list_lookup_insert_Some; [done|].
    intros [[-> [<- _]]|[_ Hk]]%list_lookup_insert_Some; [done|]. by eapply Ho2.
Qed.

Lemma free_done i t d σ :
  owned σ -> tasks σ !! i = Some t -> target t = Some d ->
  free d (set_tasks <[i := TDone]> σ).
Proof.
  intros [_ Ho2] Hi Htg j u. cbn [tasks set_tasks].
  intros [[-> [<- _]]|[Hne Hj]]%list_lookup_insert_Some; [done|].
  intros Hu. destruct Hne. by eapply Ho2.
Qed.

Lemma owned_next i t d σ :
  owned σ -> free d σ -> promises σ !! d = Some (Deferred Pending) ->
  target t = Some d ->
  owned (set_tasks <[i := t]> σ).
Proof.
  intros [Ho1 Ho2] Hf Hd Htg. split; cbn [promises tasks set_tasks].
  - intros j u d' [[-> [<- _]]|[_ Hj]]%list_lookup_insert_Some; [congruence|].
    by eapply Ho1.
  - intros j k u u' d' [[-> [<- _]]|[_ Hj]]%list_lookup_insert_Some
                       [[-> [<- _]]|[_ Hk]]%list_lookup_insert_Some Hu Hu'; try done.
    + destruct (Hf _ _ Hk). congruence.
    + destruct (Hf _ _ Hj). congruence.
    + by eapply Ho2.
Qed.

Lemma onExists_owned h f options cur d σ :
  owned σ -> free d σ -> is_Some (promises σ !! d) ->
  owned (onExists h f options cur d σ) /\
  keeps_settled σ (onExists h f options cur d σ).
Proof.
  intros Ho Hf Hd. apply lookup_lt_is_Some in Hd.
  unfold onExists. destruct (exists_ h (_path f)) as [err [|]].
  - destruct (newTheme f options) as [theme|e].
    2: { split; [by apply (owned_eq σ)|by apply keeps_settled_eq]. }
    set (σ1 := set_loadedThemes _ _).
    assert (Ho1 : owned σ1) by by apply (owned_eq σ).
    assert (Hf1 : free d σ1) by by apply (free_eq d σ).
    destruct (bool_decide _).
    + pose proof (refresh_begins h (Some true) σ1) as H.
      destruct (refresh h (Some true) σ1) as [σ2 [[]|e]]; cbn [fst] in H.
      * split.
        -- apply owned_settle; [by eapply owned_begins|].
           eapply free_begins; [exact Hf1|done|done].
        -- eapply keeps_settled_trans; [|apply settle_keeps].
           apply (keeps_settled_trans _ σ1); [by apply keeps_settled_eq|].
           by apply begins_keeps.
      * split.
        -- apply (owned_eq σ2); [done|done|]. by eapply owned_begins.
        -- apply (keeps_settled_trans _ σ2); [|by apply keeps_settled_eq].
           apply (keeps_settled_trans _ σ1); [by apply keeps_settled_eq|].
           by apply begins_keeps.
    + split; [by apply owned_settle|].
      eapply keeps_settled_trans; [|apply settle_keeps]. by apply keeps_settled_eq.
  - destruct err; [|split; [done|apply keeps_settled_refl]].
    split; [by apply owned_settle|apply settle_keeps].
Qed.

Lemma onContents_owned h path d σ :
  owned σ -> free d σ -> promises σ !! d = Some (Deferred Pending) ->
  owned (onContents h path d σ) /\ keeps_settled σ (onContents h path d σ).
Proof.
  intros Ho Hf Hd. unfold onContents.
  destruct (getContents h path) as [[e|] entries].
  - split; [by apply owned_settle|apply settle_keeps].
  - match goal with |- context [loadThemesFiles h path ?fs σ] =>
      pose proof (loadThemesFiles_begins h path fs σ) as H;
      destruct (loadThemesFiles h path fs σ) as [ds σ1]
    end.
    cbn [snd] in H. split.
    + apply owned_overwrite; [by eapply owned_begins|].
      eapply free_begins; [exact Hf|done|]. by apply lookup_lt_Some in Hd.
    + eapply keeps_settled_trans; [by apply begins_keeps|].
      eapply keeps_settled_insert; [by apply H|done].
Qed.

Lemma step_owned h i σ :
  owned σ -> owned (step h i σ) /\ keeps_settled σ (step h i σ).
Proof.
  intros Ho. unfold step.
  destruct (tasks σ !! i) as [t|] eqn:Hi; [|split; [done|apply keeps_settled_refl]].
  pose proof (owned_done i σ Ho) as Ho0.
  pose proof (free_done i t) as Hf0.
  pose proof (own_pending σ Ho i t) as Hpen.
  set (σ0 := set_tasks <[i := TDone]> σ) in *.
  assert (Hp0 : promises σ0 = promises σ) by done.
  assert (Hk : forall σ', keeps_settled σ0 σ' -> keeps_settled σ σ').
  { intros σ'. apply keeps_settled_trans. by apply keeps_settled_eq. }
  destruct t; cbn [target] in *.
  - specialize (Hf0 d σ Ho Hi eq_refl). specialize (Hpen d Hi eq_refl).
    destruct (onExists_owned h f options currentThemes d σ0 Ho0 Hf0) as [? ?].
    { by rewrite Hp0, Hpen. }
    split; [done|by apply Hk].
  - specialize (Hf0 p σ Ho Hi eq_refl). specialize (Hpen p Hi eq_refl).
    destruct (heap σ0 !! l) as [theme|]; [|split; [done|by apply Hk, keeps_settled_refl]].
    destruct (readAsText h _).
    + split; [by apply owned_settle|apply Hk, settle_keeps].
    + split; [|by apply Hk, keeps_settled_eq].
      apply (owned_next i _ p); try done.
      * by apply (owned_eq σ0).
  - specialize (Hf0 p σ Ho Hi eq_refl). specialize (Hpen p Hi eq_refl).
    destruct (heap σ0 !! l) as [theme|]; [|split; [done|by apply Hk, keeps_settled_refl]].
    destruct (lessParse h _ _).
    + split.
      * apply owned_settle; [by apply (owned_eq σ0)|by apply (free_eq p σ0)].
      * eapply Hk, keeps_settled_trans; [|apply settle_keeps]. by apply keeps_settled_eq.
    + split; [|by apply Hk, keeps_settled_eq].
      apply (owned_next i _ p); try done.
      * by apply (owned_eq σ0).
  - specialize (Hf0 p σ Ho Hi eq_refl). specialize (Hpen p Hi eq_refl).
    split; [|by apply Hk, keeps_settled_eq].
    apply (owned_next i _ p); try done.
    by apply (owned_eq σ0).
  - specialize (Hf0 p σ Ho Hi eq_refl). specialize (Hpen p Hi eq_refl).
    destruct (heap σ0 !! l) as [theme|]; [|split; [done|by apply Hk, keeps_settled_refl]].
    split.
    + apply owned_settle; [|by destruct (css theme)].
      destruct (css theme); by apply (owned_eq σ0).
    + eapply Hk, keeps_settled_trans; [|apply settle_keeps].
      destruct (css theme); by apply keeps_settled_eq.
  - specialize (Hf0 d σ Ho Hi eq_refl). specialize (Hpen d Hi eq_refl).
    destruct (onContents_owned h path d σ0 Ho0 Hf0) as [? ?]; [by rewrite Hp0|].
    split; [done|by apply Hk].
  - split; [by apply (owned_eq σ0)|by apply Hk, keeps_settled_eq].
  - split; [done|by apply Hk, keeps_settled_refl].
Qed.

Lemma later_owned σ σ' :
  owned σ -> later σ σ' -> owned σ' /\ keeps_settled σ σ'.
Proof.
  intros Ho. induction 1 as [|h i σ' _ [IH1 IH2]|h force σ' _ [IH1 IH2]
                             |h fileName options σ' _ [IH1 IH2]
                             |h pkg σ' _ [IH1 IH2]|h path σ' _ [IH1 IH2]].
  - split; [done|apply keeps_settled_refl].
  - destruct (step_owned h i σ' IH1). split; [done|by eapply keeps_settled_trans].
  - pose proof (refresh_begins h force σ') as H.
    split; [by eapply owned_begins|].
    eapply keeps_settled_trans; [done|by apply begins_keeps].
  - pose proof (loadFile_begins h fileName options σ') as H.
    split; [by eapply owned_begins|].
    eapply keeps_settled_trans; [done|by apply begins_keeps].
  - pose proof (loadFile_begins h (pkg_path pkg ++ str "/" ++ metadata_theme pkg)
                  {| Options.title := metadata_title pkg;
                     Options.name := metadata_name pkg;
                     Options.className := None |} σ') as H.
    split; [by eapply owned_begins|].
    eapply keeps_settled_trans; [done|by apply begins_keeps].
  - pose proof (loadDirectory_begins h path σ') as H.
    split; [by eapply owned_begins|].
    eapply keeps_settled_trans; [done|by apply begins_keeps].
Qed.

Lemma reachable_later σ : reachable σ -> later initial σ.
Proof. induction 1; by constructor. Qed.

(** X20.  In every reachable state a callback that is still to run holds
    a deferred that is pending, and no other callback holds the same
    deferred: no deferred of the module is resolved or rejected twice. *)
Theorem callbacks_own_deferreds σ i t d :
  reachable σ ->
  tasks σ !! i = Some t -> target t = Some d ->
  promises σ !! d = Some (Deferred Pending) /\
  forall j t', tasks σ !! j = Some t' -> target t' = Some d -> j = i.
Proof.
  intros Hr%reachable_later Hi Htg.
  destruct (later_owned initial σ owned_initial Hr) as [[Ho1 Ho2] _].
  split; [by eapply Ho1|]. intros j t' Hj Htg'. by eapply Ho2.
Qed.

(** X21.  A deferred or an aggregate that is resolved or rejected in a
    reachable state is the same, with the same value, in every later
    state. *)
Theorem settled_forever σ σ' d q :
  reachable σ -> later σ σ' ->
  promises σ !! d = Some q -> pstate q <> Pending ->
  promises σ' !! d = Some q.
Proof.
  intros Hr%reachable_later Hl.
  destruct (later_owned initial σ owned_initial Hr) as [Ho _].
  destruct (later_owned σ σ' Ho Hl) as [_ Hk]. apply Hk.
Qed.

(** X22.  When the source of a theme of a reload cannot be read, the
    aggregate of the reload is rejected with the error of the read and
    stays so in every later state: the callback of that [refresh] never
    runs, even when the other themes of the reload are applied. *)
Theorem failed_read_rejects_reload h σ i l p theme e a srcs b :
  reachable σ ->
  tasks σ !! i = Some (TRead l p) ->
  heap σ !! l = Some theme ->
  readAsText h (_path (file theme)) = inl e ->
  promises σ !! a = Some (WhenAll srcs Pending b) ->
  p ∈ srcs ->
  Forall (fun s => exists st,
            promises σ !! s = Some (Deferred st) /\ forall r, st <> Rejected r) srcs ->
  forall σ', later (step h i σ) σ' ->
    promises σ' !! a = Some (WhenAll srcs (Rejected (RError e)) b).
Proof.
  intros Hr%reachable_later Hi Hl Hread Ha Hin Hsrcs σ' Hlater.
  destruct (later_owned initial σ owned_initial Hr) as [Ho _].
  assert (Hp : promises σ !! p = Some (Deferred Pending)) by by eapply (own_pending σ Ho).
  destruct (step_owned h i σ Ho) as [Ho' _].
  destruct (later_owned _ σ' Ho' Hlater) as [_ Hk]. apply Hk; [|done].
  assert (Hσ' : step h i σ
                = settle h p (Rejected (RError e)) (set_tasks <[i := TDone]> σ)).
  { unfold step. rewrite Hi. st_simpl. by rewrite Hl, Hread. }
  rewrite Hσ'.
  destruct (settle_aggregate h p (Rejected (RError e)) (set_tasks <[i := TDone]> σ)
              a srcs b) as (σ1 & Hv1 & Ha1 & Hw & Hv2 & Ha2); try done.
  { eapply Forall_impl; [exact Hsrcs|]. intros s (st & Hs & _). by exists st. }
  cbn [promises set_tasks] in Hw.
  assert (Hrej : when_state (<[p := Deferred (Rejected (RError e))]> (promises σ)) srcs
                 = Rejected (RError e)).
  { apply (when_state_rejected _ srcs p); [done| |].
    - apply list_lookup_insert_eq. by apply lookup_lt_Some in Hp.
    - eapply Forall_impl; [exact Hsrcs|]. intros s (st & Hs & Hst).
      destruct (decide (s = p)) as [->|]; [by left|right].
      exists st. by rewrite list_lookup_insert_ne. }
  rewrite Hrej in Hw.
  rewrite Ha2. unfold update_when. rewrite Ha1, Hw.
  cbn [promises set_promises]. apply list_lookup_insert_eq.
  by apply lookup_lt_Some in Ha1.
Qed.

End Ownership.

(** ** The further statements at concrete inputs *)

Section MoreExamples.

Import Session Cases.

Lemma extracted_rule_shape_witness :
  let x := str "a{} /* c */ b::-webkit-scrollbar:hover{width:1px} d{}" in
  let e := str "  b::-webkit-scrollbar:hover{width:1px}" in
  (e ∈ Ex.scrollbar (extractScrollbars x)) /\
  exists before after, stripComments x = before ++ e ++ after.
Proof.
  intros x e.
  assert (H : e ∈ Ex.scrollbar (extractScrollbars x)).
  { vm_compute. apply list_elem_of_In. by left. }
  split; [exact H|]. exact (proj2 (extracted_rule_shape x e H)).
Defined.

Lemma nothing_to_extract_witness :
  let x := str "a{} /* b::-webkit-scrollbar{} */ d{}" in
  contains pseudo (stripComments x) = false /\
  Ex.scrollbar (extractScrollbars x) = [].
Proof.
  intros x.
  assert (H : contains pseudo (stripComments x) = false) by (vm_compute; reflexivity).
  split; [exact H|]. by rewrite (nothing_to_extract x H).
Defined.

Lemma incomplete_comment_kept_witness :
  let x := str "a{} /* the comment is not closed" in
  contains (str "*/") x = false /\ stripComments x = x.
Proof.
  intros x.
  assert (H : contains (str "*/") x = false) by (vm_compute; reflexivity).
  split; [exact H|]. exact (incomplete_comment_kept x (or_intror H)).
Defined.

Lemma newTheme_dotless_witness :
  let f := {| _path := str "/themes/LICENSE"; fname := str "LICENSE" |} in
  lastIndexOf "." (fname f) = (-1)%Z /\
  newTheme f Options.none = Throw (TypeError "part[0] is undefined").
Proof.
  intros f.
  assert (H : lastIndexOf "." (fname f) = (-1)%Z) by (vm_compute; reflexivity).
  split; [exact H|]. exact (proj1 (newTheme_dotless f Options.none H) eq_refl).
Defined.


Lemma read_failure_changes_nothing_witness :
  tasks rereading !! 3 = Some (TRead 0 3) /\
  heap (step unreadable 3 rereading) = heap rereading /\
  dom (step unreadable 3 rereading) = dom rereading /\
  promises (step unreadable 3 rereading) !! 3
    = Some (Deferred (Rejected (RError (HostError 2)))).
Proof.
  assert (Hi : tasks rereading !! 3 = Some (TRead 0 3)) by (vm_compute; reflexivity).
  assert (Hp : promises rereading !! 3 = Some (Deferred Pending))
    by (vm_compute; reflexivity).
  destruct (heap rereading !! 0) as [theme|] eqn:Hl; [|by vm_compute in Hl].
  destruct (read_failure_changes_nothing unreadable rereading 3 0 3 theme (HostError 2)
              Hi Hl eq_refl) as (Hh & Hd & _ & _ & _ & Hrej).
  exact (conj Hi (conj Hh (conj Hd (Hrej Hp)))).
Defined.

Lemma pipeline_applies_witness :
  tasks loaded !! 1 = Some (TRead 0 1) /\
  dom shown = [(0, str ".theme-dark{ body{color:red}}")] /\
  promises shown !! 1 = Some (Deferred (Resolved [0])).
Proof.
  assert (Hi : tasks loaded !! 1 = Some (TRead 0 1)) by (vm_compute; reflexivity).
  assert (Hp : promises loaded !! 1 = Some (Deferred Pending))
    by (vm_compute; reflexivity).
  destruct (heap loaded !! 0) as [theme|] eqn:Hl; [|by vm_compute in Hl].
  assert (Ht : theme = {| file := getFileForPath (str "/themes/dark.less");
                          displayName := str "Dark"; name := str "dark";
                          className := str "theme-dark";
                          scrollbar := None; css := None |}).
  { vm_compute in Hl. injection Hl as <-. vm_compute. reflexivity. }
  destruct (pipeline_applies first loaded 1 0 1 theme
              (str "body::-webkit-scrollbar{width:1px} body{color:red}")
              (str ".theme-dark{ body{color:red}}") Hi Hl Hp eq_refl)
    as (_ & Hd & _ & _ & Hres & _).
  { rewrite Ht. vm_compute. reflexivity. }
  split; [exact Hi|]. split; [|exact Hres].
  unfold shown. rewrite Hd, Ht. vm_compute. reflexivity.
Defined.




Lemma listing_checks_theme_files_witness :
  tasks (listing listed) !! 0 = Some (TList (str "/themes") 0) /\
  theme_files (Some entries) = [str "dark.less"; str "light.css"] /\
  trace (step listed 0 (listing listed)) =
    [EvGetContents (str "/themes");
     EvExists (str "/themes/dark.less"); EvExists (str "/themes/light.css")] /\
  promises (step listed 0 (listing listed)) =
    [WhenAll [1; 2] Pending false; Deferred Pending; Deferred Pending].
Proof.
  assert (Hi : tasks (listing listed) !! 0 = Some (TList (str "/themes") 0))
    by (vm_compute; reflexivity).
  destruct (listing_checks_theme_files listed (listing listed) 0 (str "/themes") 0
              (Some entries) Hi eq_refl) as (_ & _ & _ & Hp & _ & He).
  split; [exact Hi|]. split; [vm_compute; reflexivity|]. split.
  - rewrite He. vm_compute. reflexivity.
  - rewrite Hp. vm_compute. reflexivity.
Defined.

Lemma listing_failure_rejects_witness :
  tasks (listing unlisted) !! 0 = Some (TList (str "/themes") 0) /\
  promises (step unlisted 0 (listing unlisted)) !! 0
    = Some (Deferred (Rejected (RPath (Some (str "/themes")) (HostError 3)))) /\
  exists evs,
    trace (step unlisted 0 (listing unlisted)) = trace (listing unlisted) ++ evs /\
    Forall is_view_event evs.
Proof.
  assert (Hi : tasks (listing unlisted) !! 0 = Some (TList (str "/themes") 0))
    by (vm_compute; reflexivity).
  assert (Hp : promises (listing unlisted) !! 0 = Some (Deferred Pending))
    by (vm_compute; reflexivity).
  destruct (listing_failure_rejects unlisted (listing unlisted) 0 (str "/themes") 0
              (HostError 3) (Some entries) Hi eq_refl) as (_ & _ & _ & _ & He & Hrej).
  exact (conj Hi (conj (Hrej Hp) He)).
Defined.

Lemma loaded_later_shown : later loaded shown.
Proof. unfold shown. do 4 apply later_step. apply later_refl. Defined.

Lemma themes_persist_witness :
  later loaded shown /\
  forall l t, heap loaded !! l = Some t ->
    exists t', heap shown !! l = Some t' /\ same_identity t t'.
Proof.
  split; [exact loaded_later_shown|].
  exact (ev_heap _ _ (themes_persist loaded shown loaded_later_shown)).
Defined.


Lemma last_pipeline_updates_views_witness :
  tasks inserted !! 3 = Some (TApply 0 1 3) /\
  promises inserted !! 4 = Some (WhenAll [3] Pending true) /\
  promises (step changed 3 inserted) !! 4 = Some (WhenAll [3] (Resolved [0]) false) /\
  exists evs1 evs2,
    trace (step changed 3 inserted) = trace inserted ++ evs1 ++ view_events 0 ++ evs2.
Proof.
  assert (Hi : tasks inserted !! 3 = Some (TApply 0 1 3)) by (vm_compute; reflexivity).
  assert (Hp : promises inserted !! 3 = Some (Deferred Pending))
    by (vm_compute; reflexivity).
  assert (Ha : promises inserted !! 4 = Some (WhenAll [3] Pending true))
    by (vm_compute; reflexivity).
  destruct (heap inserted !! 0) as [theme|] eqn:Hl; [|by vm_compute in Hl].
  destruct (last_pipeline_updates_views changed inserted 3 0 1 3 theme 4 [3] 0
              Hi Hl Hp Ha) as ((args & Hw & Hres) & Hev & _).
  { constructor; [by left|constructor]. }
  { reflexivity. }
  split; [exact Hi|]. split; [exact Ha|]. split; [|exact Hev].
  rewrite Hres. vm_compute in Hw. by injection Hw as <-.
Defined.

Lemma rereading_reachable : reachable rereading.
Proof. unfold rereading. apply reach_refresh, shown_reachable. Defined.

Lemma callbacks_own_deferreds_witness :
  tasks rereading !! 3 = Some (TRead 0 3) /\
  promises rereading !! 3 = Some (Deferred Pending).
Proof.
  assert (Hi : tasks rereading !! 3 = Some (TRead 0 3)) by (vm_compute; reflexivity).
  split; [exact Hi|].
  exact (proj1 (callbacks_own_deferreds rereading 3 (TRead 0 3) 3
                  rereading_reachable Hi eq_refl)).
Defined.

Lemma settled_forever_witness :
  promises loaded !! 0 = Some (Deferred (Resolved [0])) /\
  promises shown !! 0 = Some (Deferred (Resolved [0])).
Proof.
  assert (H : promises loaded !! 0 = Some (Deferred (Resolved [0])))
    by (vm_compute; reflexivity).
  split; [exact H|].
  apply (settled_forever loaded shown 0 _ loaded_reachable loaded_later_shown H).
  discriminate.
Defined.

Lemma failed_read_rejects_reload_witness :
  tasks rereading !! 3 = Some (TRead 0 3) /\
  promises rereading !! 4 = Some (WhenAll [3] Pending true) /\
  forall h, promises (refresh h None (step unreadable 3 rereading)).1 !! 4
    = Some (WhenAll [3] (Rejected (RError (HostError 2))) true).
Proof.
  assert (Hi : tasks rereading !! 3 = Some (TRead 0 3)) by (vm_compute; reflexivity).
  assert (Ha : promises rereading !! 4 = Some (WhenAll [3] Pending true))
    by (vm_compute; reflexivity).
  assert (Hp : promises rereading !! 3 = Some (Deferred Pending))
    by (vm_compute; reflexivity).
  destruct (heap rereading !! 0) as [theme|] eqn:Hl; [|by vm_compute in Hl].
  split; [exact Hi|]. split; [exact Ha|]. intros h.
  apply (failed_read_rejects_reload unreadable rereading 3 0 3 theme (HostError 2)
           4 [3] true rereading_reachable Hi Hl eq_refl Ha).
  - by left.
  - constructor; [|constructor]. exists Pending. split; [exact Hp|discriminate].
  - apply later_refresh, later_refl.
Defined.

End MoreExamples.

(** ** Changes of files *)

Section Watching.



End Watching.

(** ** A change of the file of the session *)

Section WatchingExamples.

Import Session Cases.


End WatchingExamples.
